(** * ai_services: quiz parsing, validation, retry and text chunking

    A shallow embedding of [src/ai_services.py]: the text chunker
    [chunk_text], the quiz parser [parse_quiz_response] with the regular
    expressions it runs, the validator [validate_quiz_questions], the prompt
    builder and model call [generate_quiz], and the retry loop
    [regenerate_if_needed].

    Python's [str] is a sequence of Unicode code points, and the [re] module
    compiles [str] patterns in Unicode mode; strings are therefore lists of
    code points ([N]), not bytes. *)

From Stdlib Require Import String Ascii DecimalString.
From Stdlib Require Import List NArith ZArith Bool Lia.
Import ListNotations.

Set Implicit Arguments.
Local Open Scope N_scope.

(** ** Code points and strings *)

Definition codepoint := N.
Definition str := list codepoint.

(** A Python string literal of the source (ASCII text) as a [str]. *)
Definition lit (s : string) : str := map N_of_ascii (list_ascii_of_string s).

Definition str_eqb (a b : str) : bool :=
  if list_eq_dec N.eq_dec a b then true else false.

Definition between (lo hi c : codepoint) : bool := (lo <=? c) && (c <=? hi).

(** [str.isspace] on one code point, which is also what [\s] matches in a
    Unicode pattern and what [str.split()] and [str.strip()] treat as
    white space (CPython's [_PyUnicode_IsWhitespace]). *)
Definition isspace (c : codepoint) : bool :=
  between 9 13 c || between 28 32 c || (c =? 133) || (c =? 160)
  || (c =? 5760) || between 8192 8202 c || (c =? 8232) || (c =? 8233)
  || (c =? 8239) || (c =? 8287) || (c =? 12288).

(** First code points of the runs of ten decimal digits (general category
    Nd) of the Unicode database; [\d] matches exactly the category in a
    Unicode pattern.  U+1D7CE..U+1D7FF holds five such runs back to back. *)
Definition nd_zeros : list codepoint :=
  [48; 1632; 1776; 1984; 2406; 2534; 2662; 2790; 2918; 3046; 3174; 3302;
   3430; 3558; 3664; 3792; 3872; 4160; 4240; 6112; 6160; 6470; 6608; 6784;
   6800; 6992; 7088; 7232; 7248; 42528; 43216; 43264; 43472; 43504; 43600;
   44016; 65296; 66720; 68912; 69734; 69872; 69942; 70096; 70384; 70736;
   70864; 71248; 71360; 71472; 71904; 72016; 72784; 73040; 73120; 92768;
   92864; 93008; 120782; 120792; 120802; 120812; 120822; 123200; 123632;
   125264; 130032].

Definition isdecimal (c : codepoint) : bool :=
  existsb (fun z => between z (z + 9) c) nd_zeros.

(** The lower-casing of the matching engine ([_sre.unicode_tolower], the
    simple lower-case mapping).  The patterns of this module are ASCII, so
    all that a match can observe of it is which code points it sends into
    Basic Latin: the capital letters, U+212A KELVIN SIGN (to k) and U+0130
    (to i).  Every other code point has its image outside Basic Latin and is
    left in place here. *)
Definition sre_lower (c : codepoint) : codepoint :=
  if between 65 90 c then c + 32
  else if c =? 8490 then 107
  else if c =? 304 then 105
  else c.

(** The extra code points a lower-cased pattern character also stands for
    under IGNORECASE ([_ignorecase_fixes] of the pattern compiler), for
    Basic Latin: i with U+0131 DOTLESS I, s with U+017F LONG S. *)
Definition ignorecase_fixes (lo : codepoint) : list codepoint :=
  if lo =? 105 then [305] else if lo =? 115 then [383] else [].

(** [str.lower] and [str.upper] per code point, given on Basic Latin and on
    U+017F LONG S (a lower-case letter whose upper case is S).  The module
    applies the case methods only to text captured by its ASCII patterns,
    which lies in this domain ([correct_letter_group], [capitalize_true_false]);
    other code points are left in place here. *)
Definition cp_lower (c : codepoint) : codepoint :=
  if between 65 90 c then c + 32 else c.

Definition cp_upper (c : codepoint) : codepoint :=
  if between 97 122 c then c - 32
  else if c =? 383 then 83
  else c.

(** ** The [str] methods the module calls *)

(** [s.upper()] *)
Definition str_upper (s : str) : str := map cp_upper s.

(** [s.capitalize()]: first code point upper-cased (title-cased, the same on
    Basic Latin), the rest lower-cased. *)
Definition str_capitalize (s : str) : str :=
  match s with
  | [] => []
  | c :: rest => cp_upper c :: map cp_lower rest
  end.

Fixpoint str_lstrip (s : str) : str :=
  match s with
  | c :: rest => if isspace c then str_lstrip rest else s
  | [] => []
  end.

Definition str_rstrip (s : str) : str := rev (str_lstrip (rev s)).

(** [s.strip()] *)
Definition str_strip (s : str) : str := str_rstrip (str_lstrip s).

(** [s.split()]: the maximal runs of non-space code points, in order.
    [word] is the run being read, kept reversed. *)
Fixpoint split_from (word : str) (s : str) : list str :=
  match s with
  | [] => match word with [] => [] | _ => [rev word] end
  | c :: rest =>
      if isspace c
      then match word with
           | [] => split_from [] rest
           | _ => rev word :: split_from [] rest
           end
      else split_from (c :: word) rest
  end.

Definition str_split (s : str) : list str := split_from [] s.

(** [sep.join(parts)] *)
Fixpoint str_join (sep : str) (parts : list str) : str :=
  match parts with
  | [] => []
  | [p] => p
  | p :: rest => p ++ sep ++ str_join sep rest
  end.

Fixpoint startswith (prefix s : str) : bool :=
  match prefix, s with
  | [], _ => true
  | p :: prefix', c :: s' => (p =? c) && startswith prefix' s'
  | _ :: _, [] => false
  end.

(** [sub in s] *)
Fixpoint str_contains (sub s : str) : bool :=
  startswith sub s ||
  match s with
  | [] => false
  | _ :: s' => str_contains sub s'
  end.

(** [str(n)] for an [int]. *)
Definition str_of_int (n : Z) : str := lit (NilZero.string_of_int (Z.to_int n)).

(** ** Regular expressions

    The fragment of Python's [re] syntax that the patterns of the module
    use.  Repetition is only ever applied to a single-character atom
    ([\s*], [\d+], [.+?]); a pattern has at most one capturing group. *)

Inductive atom : Type :=
| Chr (c : codepoint)       (* a literal character *)
| Rng (lo hi : codepoint)   (* [lo-hi] *)
| Dot                       (* .  *)
| Space                     (* \s *)
| Digit.                    (* \d *)

Inductive regex : Type :=
| Eps
| Atom (a : atom)
| Cat (r1 r2 : regex)
| Alt (r1 r2 : regex)
| Star (a : atom)           (* a*  (greedy) *)
| Plus (a : atom)           (* a+  (greedy) *)
| PlusLazy (a : atom)       (* a+? *)
| Group (r : regex)         (* ( r ), group 1 *)
| Ahead (r : regex)         (* (?= r ) *)
| Eos.                      (* $ without MULTILINE *)

Declare Scope regex_scope.
Delimit Scope regex_scope with re.
Bind Scope regex_scope with regex.
Infix ";;" := Cat (at level 61, right associativity) : regex_scope.
Infix "|||" := Alt (at level 50, left associativity) : regex_scope.

(** Literal text inside a pattern. *)
Fixpoint text_of (s : str) : regex :=
  match s with
  | [] => Eps
  | [c] => Atom (Chr c)
  | c :: rest => Cat (Atom (Chr c)) (text_of rest)
  end.

Definition text (s : string) : regex := text_of (lit s).

(** The flags the module passes to [re.search]. *)
Record flags : Type := { IGNORECASE : bool; DOTALL : bool }.

Definition no_flags : flags := {| IGNORECASE := false; DOTALL := false |}.
Definition re_DOTALL : flags := {| IGNORECASE := false; DOTALL := true |}.
Definition re_IGNORECASE : flags := {| IGNORECASE := true; DOTALL := false |}.

(** Members of the lower-cased character set the compiler builds for a
    literal or a range under IGNORECASE. *)
Definition in_folded (lo l : codepoint) : bool :=
  (l =? lo) || existsb (N.eqb l) (ignorecase_fixes lo).

Definition cp_range (lo hi : codepoint) : list codepoint :=
  map N.of_nat (seq (N.to_nat lo) (N.to_nat (hi + 1 - lo))).

Definition atom_match (fl : flags) (a : atom) (c : codepoint) : bool :=
  match a with
  | Chr p =>
      if IGNORECASE fl then in_folded (sre_lower p) (sre_lower c) else c =? p
  | Rng lo hi =>
      if IGNORECASE fl
      then existsb (fun i => in_folded (sre_lower i) (sre_lower c)) (cp_range lo hi)
      else between lo hi c
  | Dot => DOTALL fl || negb (c =? 10)   (* 10 is the newline *)
  | Space => isspace c
  | Digit => isdecimal c
  end.

(** *** The backtracking matcher

    [k] is what remains to be matched after the current sub-pattern; it
    receives the text not yet consumed.  The first success in the engine's
    order of preference is returned. *)

Section Repetition.
Context {R : Type}.
Variable p : codepoint -> bool.
Variable k : str -> option R.

(** Greedy: take one more character first, give it back on failure. *)
Fixpoint greedy_star (s : str) : option R :=
  match s with
  | c :: rest =>
      if p c
      then match greedy_star rest with
           | Some x => Some x
           | None => k s
           end
      else k s
  | [] => k s
  end.

Definition greedy_plus (s : str) : option R :=
  match s with
  | c :: rest => if p c then greedy_star rest else None
  | [] => None
  end.

(** Lazy: try to go on first, take one more character on failure. *)
Fixpoint lazy_star (s : str) : option R :=
  match k s with
  | Some x => Some x
  | None =>
      match s with
      | c :: rest => if p c then lazy_star rest else None
      | [] => None
      end
  end.

Definition lazy_plus (s : str) : option R :=
  match s with
  | c :: rest => if p c then lazy_star rest else None
  | [] => None
  end.
End Repetition.

(** [g] is the text of group 1, if the group has matched so far. *)
Fixpoint rmatch (fl : flags) (r : regex) {R : Type} (s : str) (g : option str)
    (k : str -> option str -> option R) {struct r} : option R :=
  match r with
  | Eps => k s g
  | Atom a =>
      match s with
      | c :: rest => if atom_match fl a c then k rest g else None
      | [] => None
      end
  | Cat r1 r2 => rmatch fl r1 s g (fun s1 g1 => rmatch fl r2 s1 g1 k)
  | Alt r1 r2 =>
      match rmatch fl r1 s g k with
      | Some x => Some x
      | None => rmatch fl r2 s g k
      end
  | Star a => greedy_star (atom_match fl a) (fun s1 => k s1 g) s
  | Plus a => greedy_plus (atom_match fl a) (fun s1 => k s1 g) s
  | PlusLazy a => lazy_plus (atom_match fl a) (fun s1 => k s1 g) s
  | Group r1 =>
      rmatch fl r1 s g
        (fun s1 _ => k s1 (Some (firstn (length s - length s1) s)))
  | Ahead r1 =>
      match rmatch fl r1 s g (fun _ _ => Some tt) with
      | Some _ => k s g
      | None => None
      end
  | Eos =>
      match s with
      | [] => k s g
      | [c] => if c =? 10 then k s g else None   (* before a final newline *)
      | _ => None
      end
  end.

(** A match object: the text after the match and [group(1)]. *)
Record rematch : Type := { m_end : str; m_group : option str }.

(** [pattern.match(s)]: a match starting at the first character of [s]. *)
Definition match_at (fl : flags) (r : regex) (s : str) : option rematch :=
  rmatch fl r s None (fun s1 g => Some {| m_end := s1; m_group := g |}).

(** [re.search(pattern, s, flags)]: the leftmost match. *)
Fixpoint re_search (fl : flags) (r : regex) (s : str) : option rematch :=
  match match_at fl r s with
  | Some m => Some m
  | None =>
      match s with
      | [] => None
      | _ :: rest => re_search fl r rest
      end
  end.

(** [re.split(pattern, s)] for a pattern without groups: the pieces of [s]
    between successive matches.  [skip] counts the characters of the current
    match still to be passed over, [piece] is the piece being read, kept
    reversed.  The one pattern the module splits on begins with a literal
    newline, so its matches are never empty; an empty match is passed over
    here. *)
Fixpoint split_scan (fl : flags) (r : regex) (skip : nat) (piece : str)
    (s : str) : list str :=
  match s with
  | [] => [rev piece]
  | c :: rest =>
      match skip with
      | S n => split_scan fl r n piece rest
      | O =>
          match match_at fl r s with
          | Some m =>
              match (length s - length (m_end m))%nat with
              | S n => rev piece :: split_scan fl r n [] rest
              | O => split_scan fl r O (c :: piece) rest
              end
          | None => split_scan fl r O (c :: piece) rest
          end
      end
  end.

Definition re_split (fl : flags) (r : regex) (s : str) : list str :=
  split_scan fl r O [] s.

Definition letter_A : codepoint := 65.
Definition letter_D : codepoint := 68.
Definition newline : codepoint := 10.
Definition rparen : codepoint := 41.

(** *** What a pattern matches

    [Matches fl r w rest g g']: under the flags [fl] the pattern [r] can
    match the text [w] when [rest] follows it, taking group 1 from [g] to
    [g'].  The matcher only ever returns such matches ([rmatch_sound]). *)

Inductive Matches (fl : flags)
  : regex -> str -> str -> option str -> option str -> Prop :=
| M_eps rest g : Matches fl Eps [] rest g g
| M_atom a c rest g :
    atom_match fl a c = true -> Matches fl (Atom a) [c] rest g g
| M_cat r1 r2 w1 w2 rest g g1 g2 :
    Matches fl r1 w1 (w2 ++ rest) g g1 ->
    Matches fl r2 w2 rest g1 g2 ->
    Matches fl (Cat r1 r2) (w1 ++ w2) rest g g2
| M_alt_l r1 r2 w rest g g' :
    Matches fl r1 w rest g g' -> Matches fl (Alt r1 r2) w rest g g'
| M_alt_r r1 r2 w rest g g' :
    Matches fl r2 w rest g g' -> Matches fl (Alt r1 r2) w rest g g'
| M_star a w rest g :
    Forall (fun c => atom_match fl a c = true) w ->
    Matches fl (Star a) w rest g g
| M_plus a w rest g :
    w <> [] -> Forall (fun c => atom_match fl a c = true) w ->
    Matches fl (Plus a) w rest g g
| M_plus_lazy a w rest g :
    w <> [] -> Forall (fun c => atom_match fl a c = true) w ->
    Matches fl (PlusLazy a) w rest g g
| M_group r w rest g g1 :
    Matches fl r w rest g g1 -> Matches fl (Group r) w rest g (Some w)
| M_ahead r w rest' g g1 :
    Matches fl r w rest' g g1 -> Matches fl (Ahead r) [] (w ++ rest') g g
| M_eos_end g : Matches fl Eos [] [] g g
| M_eos_newline g : Matches fl Eos [] [newline] g g.

(** Every match of the pattern goes through its group. *)
Fixpoint binds_group (r : regex) : bool :=
  match r with
  | Group _ => true
  | Cat r1 r2 => binds_group r1 || binds_group r2
  | Alt r1 r2 => binds_group r1 && binds_group r2
  | _ => false
  end.

(** *** The patterns of [parse_quiz_response] *)


(** [\n(?=Q:|\d+\.)] *)
Definition block_boundary : regex :=
  (Atom (Chr newline) ;; Ahead (text "Q:" ||| (Plus Digit ;; Atom (Chr 46))))%re.

(** [(?=\n[A-D]\)|Correct:|$)] *)
Definition until_marker : regex :=
  Ahead ((Atom (Chr newline) ;; Atom (Rng letter_A letter_D) ;; Atom (Chr rparen))
         ||| (text "Correct:" ||| Eos))%re.

(** [Q:\s*(.+?)(?=\n[A-D]\)|Correct:|$)], searched with DOTALL *)
Definition question_pattern : regex :=
  (text "Q:" ;; Star Space ;; Group (PlusLazy Dot) ;; until_marker)%re.

(** [[A-D]\)] *)
Definition option_letter_pattern : regex :=
  (Atom (Rng letter_A letter_D) ;; Atom (Chr rparen))%re.

(** [f'{letter}\)\s*(.+?)(?=\n[A-D]\)|Correct:|$)'], searched with DOTALL *)
Definition option_pattern (letter : codepoint) : regex :=
  (Atom (Chr letter) ;; Atom (Chr rparen) ;; Star Space ;; Group (PlusLazy Dot)
   ;; until_marker)%re.

(** [Correct:\s*([A-D])], searched with IGNORECASE *)
Definition correct_letter_pattern : regex :=
  (text "Correct:" ;; Star Space ;; Group (Atom (Rng letter_A letter_D)))%re.

(** [Correct:\s*(True|False)], searched with IGNORECASE *)
Definition correct_tf_pattern : regex :=
  (text "Correct:" ;; Star Space ;; Group (text "True" ||| text "False"))%re.

(** ** Question records

    The dictionaries [parse_quiz_response] builds, with their four keys
    (the [QuizQuestion] model of the API layer has the same fields). *)

Record QuizQuestion : Type := {
  question : str;
  options : option (list str);     (* [None] for a true/false question *)
  correct_answer : str;
  type : str
}.

Definition isnil {A : Type} (l : list A) : bool :=
  match l with [] => true | _ => false end.

(** ** [parse_quiz_response] *)

(** What the loop body did with one block. *)
Inductive block_result : Type :=
| Skipped                                (* blank, or no 'Q:' in it *)
| NoQuestion                             (* the question pattern found nothing *)
| MultipleChoice (appended : option QuizQuestion)
| TrueFalse (appended : option QuizQuestion)
| Caught.                                (* an exception reached the handler *)

(** The dictionary literal [{'A': 0, 'B': 1, 'C': 2, 'D': 3}]. *)
Definition letter_to_index : list (str * nat) :=
  [(lit "A", 0%nat); (lit "B", 1%nat); (lit "C", 2%nat); (lit "D", 3%nat)].

(** [d[key]]; [None] stands for the KeyError. *)
Fixpoint dict_get {V : Type} (d : list (str * V)) (key : str) : option V :=
  match d with
  | [] => None
  | (k, v) :: rest => if str_eqb k key then Some v else dict_get rest key
  end.

(** The loop over ['A', 'B', 'C', 'D'] that fills [options]; [None] stands
    for an exception ([group(1)] of a match whose group is unset). *)
Fixpoint collect_options (block : str) (letters : list codepoint)
    (options : list str) : option (list str) :=
  match letters with
  | [] => Some options
  | letter :: rest =>
      match re_search re_DOTALL (option_pattern letter) block with
      | Some option_match =>
          match m_group option_match with
          | Some g => collect_options block rest (options ++ [str_strip g])
          | None => None
          end
      | None => collect_options block rest options
      end
  end.

Definition multiple_choice (block question_text : str) : block_result :=
  match collect_options block [65; 66; 67; 68] [] with
  | None => Caught
  | Some opts =>
      match re_search re_IGNORECASE correct_letter_pattern block with
      | Some correct_match =>
          if (length opts =? 4)%nat
          then match m_group correct_match with
               | None => Caught
               | Some g =>
                   let correct_letter := str_upper g in
                   match dict_get letter_to_index correct_letter with
                   | None => Caught
                   | Some i =>
                       match nth_error opts i with
                       | None => Caught
                       | Some answer =>
                           MultipleChoice
                             (Some {| question := question_text;
                                      options := Some opts;
                                      correct_answer := answer;
                                      type := lit "mcq" |})
                       end
                   end
               end
          else MultipleChoice None
      | None => MultipleChoice None
      end
  end.

Definition true_false (block question_text : str) : block_result :=
  match re_search re_IGNORECASE correct_tf_pattern block with
  | Some correct_match =>
      match m_group correct_match with
      | None => Caught
      | Some g =>
          TrueFalse
            (Some {| question := question_text;
                     options := None;
                     correct_answer := str_capitalize g;
                     type := lit "true_false" |})
      end
  | None => TrueFalse None
  end.

Definition parse_block (block : str) : block_result :=
  if isnil (str_strip block) || negb (str_contains (lit "Q:") block)
  then Skipped
  else
    match re_search re_DOTALL question_pattern block with
    | None => NoQuestion
    | Some question_match =>
        match m_group question_match with
        | None => Caught
        | Some g =>
            let question_text := str_strip g in
            match re_search no_flags option_letter_pattern block with
            | Some _ => multiple_choice block question_text
            | None => true_false block question_text
            end
        end
    end.

(** The records one block appends to [questions]. *)
Definition block_records (block : str) : list QuizQuestion :=
  match parse_block block with
  | MultipleChoice (Some q) | TrueFalse (Some q) => [q]
  | _ => []
  end.

Definition question_blocks (quiz_text : str) : list str :=
  re_split no_flags block_boundary (str_strip quiz_text).

Definition parse_quiz_response (quiz_text question_type : str)
  : list QuizQuestion :=
  flat_map block_records (question_blocks quiz_text).

(** ** [validate_quiz_questions] *)

(** The body of the loop over the records: [true] when it returns False. *)
Definition rejected (q : QuizQuestion) : bool :=
  if isnil (question q) || isnil (correct_answer q) then true
  else if str_eqb (type q) (lit "mcq")
       then match options q with
            | None => true
            | Some opts => isnil opts || negb (length opts =? 4)%nat
            end
       else false.

Fixpoint validate_each (questions : list QuizQuestion) : bool :=
  match questions with
  | [] => true
  | q :: rest => if rejected q then false else validate_each rest
  end.

Definition validate_quiz_questions (questions : list QuizQuestion)
    (min_questions : Z) : bool :=
  if (Z.of_nat (length questions) <? min_questions)%Z then false
  else validate_each questions.

(** ** [chunk_text] *)

Definition space : str := lit " ".

(** The loop over the words, from the state [(chunks, current_chunk,
    current_length)] to the state at its end. *)
Fixpoint chunk_words (max_length : Z) (words : list str) (chunks : list str)
    (current_chunk : list str) (current_length : Z) : list str * list str :=
  match words with
  | [] => (chunks, current_chunk)
  | word :: rest =>
      let word_length := (Z.of_nat (length word) + 1)%Z in
      if (current_length + word_length >? max_length)%Z
      then chunk_words max_length rest
             (chunks ++ [str_join space current_chunk]) [word] word_length
      else chunk_words max_length rest
             chunks (current_chunk ++ [word]) (current_length + word_length)%Z
  end.

Definition chunk_text (text : str) (max_length : Z) : list str :=
  let (chunks, current_chunk) :=
    chunk_words max_length (str_split text) [] [] 0%Z in
  if isnil current_chunk then chunks
  else chunks ++ [str_join space current_chunk].

(** ** The model call and the retry loop

    The hosted model is outside the program.  A run is described by what the
    successive calls of [model.generate_content(prompt).text] do: call
    number [n] of the process, given its prompt, returns a completion or
    raises.  The state threaded through the program is the number of calls
    issued so far. *)

(** An exception raised inside the client library: the name of its class,
    whether that class derives from [Exception] (KeyboardInterrupt,
    SystemExit, GeneratorExit and the classes derived from BaseException
    alone do not), and [str(e)]. *)
Record failure : Type := {
  failure_class : string;
  failure_is_exception : bool;
  failure_str : str
}.

(** The exceptions of a run. *)
Inductive exn : Type :=
| ClientError (f : failure)              (* raised inside the client library *)
| Exception (message : str)              (* [raise Exception(message)] *)
| UnboundLocalError (variable : string). (* a local read before any assignment *)

(** [str(e)]; for the unbound local, the text of CPython 3.11. *)
Definition exn_str (e : exn) : str :=
  match e with
  | ClientError f => failure_str f
  | Exception message => message
  | UnboundLocalError variable =>
      lit "cannot access local variable '" ++ lit variable
      ++ lit "' where it is not associated with a value"
  end.

Inductive outcome (A : Type) : Type :=
| Returned (a : A)
| Raised (e : exn).
Arguments Raised {A} e.

Definition M (A : Type) : Type := nat -> outcome A * nat.

Definition ret {A : Type} (a : A) : M A := fun calls => (Returned a, calls).

Definition raise {A : Type} (e : exn) : M A := fun calls => (Raised e, calls).

Definition bind {A B : Type} (m : M A) (f : A -> M B) : M B :=
  fun calls =>
    match m calls with
    | (Returned a, calls1) => f a calls1
    | (Raised e, calls1) => (Raised e, calls1)
    end.

Notation "'let*' x ':=' m 'in' f" := (bind m (fun x => f))
  (at level 10, x name, m at level 100, f at level 200).

(** [isinstance(e, Exception)]: what an [except Exception] clause tests. *)
Definition isinstance_Exception (e : exn) : bool :=
  match e with
  | ClientError f => failure_is_exception f
  | Exception _ => true
  | UnboundLocalError _ => true
  end.

(** [try: body / except Exception as e: handler(e)]; an exception of
    another class passes through the [try] unchanged. *)
Definition try_except {A : Type} (body : M A) (handler : exn -> M A) : M A :=
  fun calls =>
    match body calls with
    | (Returned a, calls1) => (Returned a, calls1)
    | (Raised e, calls1) =>
        if isinstance_Exception e then handler e calls1
        else (Raised e, calls1)
    end.

Definition model_client : Type := nat -> str -> failure + str.

(** The three prompts of [generate_quiz]. *)
Definition mcq_format : str := lit "Q: [Clear question here]
A) [First option]
B) [Second option]
C) [Third option]
D) [Fourth option]
Correct: [A/B/C/D]
".

Definition true_false_format : str := lit "Q: [Statement here]
Correct: [True/False]
".

Definition text_to_generate (text : str) : str :=
  lit "
Text to generate questions from:
" ++ text.

Definition quiz_prompt (text : str) (num_questions : Z) (question_type : str)
  : str :=
  if str_eqb question_type (lit "mcq") then
    lit "Generate exactly " ++ str_of_int num_questions
    ++ lit " multiple-choice questions from this text.

Format EXACTLY like this for each question:
" ++ mcq_format ++ text_to_generate text
  else if str_eqb question_type (lit "true_false") then
    lit "Generate exactly " ++ str_of_int num_questions
    ++ lit " true/false questions from this text.

Format EXACTLY like this for each question:
" ++ true_false_format ++ text_to_generate text
  else
    let mcq_count := (num_questions / 2)%Z in
    let tf_count := (num_questions - mcq_count)%Z in
    lit "Generate " ++ str_of_int mcq_count
    ++ lit " multiple-choice questions and " ++ str_of_int tf_count
    ++ lit " true/false questions from this text.

For MCQ questions, format EXACTLY like this:
" ++ mcq_format ++ lit "
For True/False questions, format EXACTLY like this:
" ++ true_false_format ++ text_to_generate text.

Section Retry.
Variable client : model_client.

(** [model.generate_content(prompt).text]: one call to the model. *)
Definition generate_content (prompt : str) : M str :=
  fun calls =>
    match client calls prompt with
    | inr response_text => (Returned response_text, S calls)
    | inl f => (Raised (ClientError f), S calls)
    end.

(** The handler of the [try] around the call catches the exceptions of the
    classes derived from [Exception] and raises a new, plain [Exception]
    that carries the [str] of the one it caught. *)
Definition generate_quiz (text : str) (num_questions : Z)
    (question_type : str) : M str :=
  try_except
    (let* response_text :=
       generate_content (quiz_prompt text num_questions question_type) in
     ret response_text)
    (fun e => raise (Exception (lit "Quiz generation failed: " ++ exn_str e))).

Section Loop.
Variables (text : str) (num_questions : Z) (question_type : str).

(** [for attempt in range(max_attempts)] with [attempts] iterations
    left; [questions] is the local variable, unbound before the first
    iteration. *)
Fixpoint retry (attempts : nat) (questions : option (list QuizQuestion))
  : M (list QuizQuestion) :=
  match attempts with
  | O =>
      match questions with
      | Some qs => ret qs
      | None => raise (UnboundLocalError "questions")
      end
  | S remaining =>
      let* quiz_text := generate_quiz text num_questions question_type in
      let questions := parse_quiz_response quiz_text question_type in
      if validate_quiz_questions questions (Z.max 1 (num_questions - 2))
      then ret questions
      else retry remaining (Some questions)
  end.
End Loop.

Definition regenerate_if_needed (text : str) (num_questions : Z)
    (question_type : str) (max_attempts : Z) : M (list QuizQuestion) :=
  retry text num_questions question_type (Z.to_nat max_attempts) None.
End Retry.

(** ** [generate_summary] *)

(** [d.get(key, default)] *)
Definition dict_get_default {V : Type} (d : list (str * V)) (key : str)
    (default : V) : V :=
  match dict_get d key with
  | Some v => v
  | None => default
  end.

Definition concise_prompt (text : str) : str :=
  lit "Provide a concise summary of this text in 3-5 sentences:

" ++ text.

(** The dictionary [prompts] of the short-text path. *)
Definition summary_prompts (text : str) : list (str * str) :=
  [ (lit "concise", concise_prompt text);
    (lit "detailed", lit "Provide a detailed summary covering all key points:

" ++ text);
    (lit "bullet_points", lit "Summarize in clear bullet points:

" ++ text) ].

Definition chunk_prompt (chunk : str) : str :=
  lit "Summarize this text concisely:

" ++ chunk.

Definition final_prompt (summary_type combined : str) : str :=
  lit "Create a final " ++ summary_type ++ lit " summary from these summaries:

" ++ combined.

Section Summary.
Variable client : model_client.

(** The loop over the chunks of a long text: one model call per chunk, its
    response appended to [summaries]. *)
Fixpoint summarize_chunks (chunks : list str) (summaries : list str)
  : M (list str) :=
  match chunks with
  | [] => ret summaries
  | chunk :: rest =>
      let* response := generate_content client (chunk_prompt chunk) in
      summarize_chunks rest (summaries ++ [response])
  end.

Definition generate_summary (text summary_type : str) : M str :=
  try_except
    (if (4000 <? Z.of_nat (length text))%Z
     then
       let chunks := chunk_text text 4000 in
       let* summaries := summarize_chunks chunks [] in
       let combined := str_join space summaries in
       let* final_response :=
         generate_content client (final_prompt summary_type combined) in
       ret final_response
     else
       let prompts := summary_prompts text in
       let prompt :=
         dict_get_default prompts summary_type (concise_prompt text) in
       let* response := generate_content client prompt in
       ret response)
    (fun e => raise (Exception (lit "Summary generation failed: " ++ exn_str e))).
End Summary.

(** ** [utils]: text helpers *)

(** [re.sub(pattern, repl, s)] for a pattern that never matches the empty
    string and a replacement without escapes: every match, found from left
    to right, is replaced by [repl].  [skip] counts the characters of the
    current match still to be passed over. *)
Fixpoint sub_scan (fl : flags) (r : regex) (repl : str) (skip : nat)
    (s : str) : str :=
  match s with
  | [] => []
  | c :: rest =>
      match skip with
      | S n => sub_scan fl r repl n rest
      | O =>
          match match_at fl r s with
          | Some m =>
              match (length s - length (m_end m))%nat with
              | S n => repl ++ sub_scan fl r repl n rest
              | O => c :: sub_scan fl r repl O rest
              end
          | None => c :: sub_scan fl r repl O rest
          end
      end
  end.

Definition re_sub (fl : flags) (r : regex) (repl s : str) : str :=
  sub_scan fl r repl O s.

(** [\s+] *)
Definition whitespace_run : regex := Plus Space.

(** [\n\s*\n] *)
Definition blank_lines : regex :=
  (Atom (Chr newline) ;; Star Space ;; Atom (Chr newline))%re.

(** [[\x00-\x08\x0b-\x0c\x0e-\x1f\x7f-\x9f]]: a class of four ranges. *)
Definition control_characters : regex :=
  (Atom (Rng 0 8) ||| Atom (Rng 11 12) ||| Atom (Rng 14 31)
   ||| Atom (Rng 127 159))%re.

Definition clean_text (text : str) : str :=
  let text := re_sub no_flags whitespace_run space text in
  let text := re_sub no_flags blank_lines [newline; newline] text in
  let text := re_sub no_flags control_characters [] text in
  str_strip text.

Definition count_words (text : str) : Z := Z.of_nat (length (str_split text)).

Definition validate_text_content (text : str) (min_words : Z) : bool :=
  let word_count := count_words text in
  (min_words <=? word_count)%Z && (0 <? Z.of_nat (length (str_strip text)))%Z.

(** The number of elements of [range(start, stop, step)], [step] not 0. *)
Definition range_length (start stop step : Z) : nat :=
  if (0 <? step)%Z
  then if (start <? stop)%Z
       then Z.to_nat ((stop - start - 1) / step + 1)
       else 0%nat
  else if (stop <? start)%Z
       then Z.to_nat ((start - stop - 1) / (- step) + 1)
       else 0%nat.

(** [range(start, stop, step)]; [None] stands for the ValueError on a zero
    step. *)
Definition py_range (start stop step : Z) : option (list Z) :=
  if (step =? 0)%Z then None
  else Some (map (fun k => (start + Z.of_nat k * step)%Z)
               (seq 0 (range_length start stop step))).

(** A slice bound brought into [0 .. len]: counted from the end when
    negative, clipped at both ends. *)
Definition slice_index (len i : Z) : Z :=
  if (i <? 0)%Z then Z.max (i + len) 0 else Z.min i len.

(** [l[start:stop]] *)
Definition py_slice {A : Type} (l : list A) (start stop : Z) : list A :=
  let len := Z.of_nat (length l) in
  let a := slice_index len start in
  let b := slice_index len stop in
  firstn (Z.to_nat (b - a)) (skipn (Z.to_nat a) l).

(** [None] stands for the ValueError of [range] when [chunk_size] equals
    [overlap]. *)
Definition chunk_text_for_processing (text : str) (chunk_size overlap : Z)
  : option (list str) :=
  let words := str_split text in
  match py_range 0 (Z.of_nat (length words)) (chunk_size - overlap) with
  | None => None
  | Some starts =>
      Some (map (fun i => str_join space (py_slice words i (i + chunk_size)))
              starts)
  end.

(** ** Notions the properties are stated with *)

(** The number of options of a record; a record without options has none. *)
Definition option_count (q : QuizQuestion) : nat :=
  match options q with
  | None => 0
  | Some opts => length opts
  end.

(** The threshold [regenerate_if_needed] validates against. *)
Definition relaxed_threshold (num_questions : Z) : Z :=
  Z.max 1 (num_questions - 2).

(** The data-model invariants of a record, by kind. *)
Definition multiple_choice_invariant (q : QuizQuestion) : Prop :=
  exists opts, options q = Some opts /\ length opts = 4%nat
               /\ In (correct_answer q) opts.

Definition true_false_invariant (q : QuizQuestion) : Prop :=
  options q = None
  /\ (correct_answer q = lit "True" \/ correct_answer q = lit "False").

Definition record_invariant (q : QuizQuestion) : Prop :=
  (type q = lit "mcq" -> multiple_choice_invariant q)
  /\ (type q = lit "true_false" -> true_false_invariant q).

(** The input with every run of white space collapsed to one space and the
    ends trimmed. *)
Definition whitespace_collapsed (text : str) : str :=
  str_join space (str_split text).

(** The lines of a block: its pieces between newlines.  [line] is the line
    being read, kept reversed. *)
Fixpoint lines_from (line : str) (s : str) : list str :=
  match s with
  | [] => [rev line]
  | c :: rest =>
      if c =? newline then rev line :: lines_from [] rest
      else lines_from (c :: line) rest
  end.

Definition lines (s : str) : list str := lines_from [] s.

(** A text holds an option letter: somewhere in it one of A, B, C, D is
    directly followed by a closing parenthesis. *)
Fixpoint has_option_letter (line : str) : bool :=
  match line with
  | c :: (d :: _) as rest =>
      (between letter_A letter_D c && (d =? rparen)) || has_option_letter rest
  | _ => false
  end.

(** A line matches the option-letter pattern: it begins with one of A, B,
    C, D directly followed by a closing parenthesis, as the option lines
    of the prompt's format do. *)
Definition begins_with_option_letter (line : str) : bool :=
  match line with
  | c :: d :: _ => between letter_A letter_D c && (d =? rparen)
  | _ => false
  end.

(** The block contains a line matching the option-letter pattern. *)
Definition has_option_line (block : str) : bool :=
  existsb begins_with_option_letter (lines block).

(** An option letter occurs inside a line of the block, after the first
    character of the line. *)
Definition option_letter_inside (block : str) : bool :=
  existsb (fun line => has_option_letter (tl line)) (lines block).

(** The attempts numbered [calls .. calls + n - 1] of a run all return a
    completion, [completion i] for attempt [i], whose records do not
    validate against the relaxed threshold. *)
Definition all_rejected (client : model_client) (text : str)
    (num_questions : Z) (question_type : str) (completion : nat -> str)
    (calls n : nat) : Prop :=
  forall i, (i < n)%nat ->
    client (calls + i)%nat (quiz_prompt text num_questions question_type)
    = inr (completion (calls + i)%nat)
    /\ validate_quiz_questions
         (parse_quiz_response (completion (calls + i)%nat) question_type)
         (relaxed_threshold num_questions) = false.

(** The chunk list [chunk_text] returns from the state the loop ends in. *)
Definition finish_chunks (state : list str * list str) : list str :=
  let (chunks, current_chunk) := state in
  if isnil current_chunk then chunks
  else chunks ++ [str_join space current_chunk].

(** The first word alone is already over the budget. *)
Definition first_word_overflows (text : str) (max_length : Z) : bool :=
  match str_split text with
  | word :: _ => (Z.of_nat (length word) + 1 >? max_length)%Z
  | [] => false
  end.

(** "False" spelt with U+017F LONG S for its s. *)
Definition long_s_false : str := [70; 97; 108; 383; 101].

(** The answers a true/false record can carry. *)
Definition true_false_answer (answer : str) : Prop :=
  answer = lit "True" \/ answer = lit "False" \/ answer = long_s_false.

(** The branch of the parser a block went through. *)
Definition treated_as_multiple_choice (block : str) : Prop :=
  exists appended, parse_block block = MultipleChoice appended.

Definition treated_as_true_false (block : str) : Prop :=
  exists appended, parse_block block = TrueFalse appended.

(** A [Correct:] line: a line that begins with [Correct:], in any letter
    case. *)
Definition correct_line (line : str) : bool :=
  startswith (lit "correct:") (map cp_lower line).

(** The letter a [Correct:] line names: the first character after the
    colon and the white space that follows it. *)
Definition named_letter (line : str) : option codepoint :=
  if correct_line line
  then match str_lstrip (skipn 8 line) with
       | c :: _ => Some c
       | [] => None
       end
  else None.

(** The [Correct:] letter of a block is not one of A to D: the block has a
    [Correct:] line, and no such line names one of the four letters, in
    either case. *)
Definition correct_letter_not_A_to_D (block : str) : Prop :=
  existsb correct_line (lines block) = true
  /\ forall line c,
       In line (lines block) -> named_letter line = Some c ->
       ~ In c [65; 66; 67; 68; 97; 98; 99; 100].

(** What a block contributes, whatever became of it. *)
Definition well_formed_result (result : block_result) : Prop :=
  match result with
  | Skipped | NoQuestion | MultipleChoice None | TrueFalse None => True
  | MultipleChoice (Some q) =>
      type q = lit "mcq" /\ multiple_choice_invariant q
  | TrueFalse (Some q) =>
      type q = lit "true_false" /\ options q = None
      /\ true_false_answer (correct_answer q)
  | Caught => False
  end.

(** The completion on which the true/false half fails: one true/false
    block whose answer is "False" written with U+017F LONG S. *)
Definition long_s_completion : str :=
  lit "Q: x
Correct: " ++ long_s_false.

(** ** Sample runs

    Completions and model clients on which the properties are exercised. *)

(** The two-question completion of the specification's scenario. *)
Definition sample_completion : str := lit "Q: The sky is blue.
Correct: True
Q: What is 2+2?
A) 3
B) 4
C) 5
D) 6
Correct: B".

Definition sample_mcq_block : str := lit "Q: What is 2+2?
A) 3
B) 4
C) 5
D) 6
Correct: B".

(** A completion without any question. *)
Definition junk_completion : str := lit "I cannot help with that.".

(** A multiple-choice block whose [Correct:] letter is E. *)
Definition invalid_letter_block : str := lit "Q: What?
A) 1
B) 2
C) 3
D) 4
Correct: E".

Definition lower_case_block : str := lit "Q: x
Correct: false".

(** A multiple-choice block whose [Correct:] line names E and whose
    question holds the words "correct: banana". *)
Definition wrong_letter_block : str :=
  lit "Q: Which is correct: banana or apple?
A) 1
B) 2
C) 3
D) 4
Correct: E".

(** A true/false block, in the format of the prompt, whose statement holds
    "(C)". *)
Definition vitamin_block : str := lit "Q: Vitamin (C) is an acid.
Correct: True".

Definition invalid_letter_completion : str :=
  invalid_letter_block ++ [newline] ++ lower_case_block.

Definition notes : str := lit "The sky is blue. 2+2 is 4.".

Definition sample_client : model_client := fun _ _ => inr sample_completion.

Definition junk_client : model_client := fun _ _ => inr junk_completion.

Definition quota : failure :=
  {| failure_class := "ResourceExhausted";
     failure_is_exception := true;
     failure_str := lit "quota" |}.

(** Ctrl-C during a model call: a class outside [Exception]. *)
Definition interrupt : failure :=
  {| failure_class := "KeyboardInterrupt";
     failure_is_exception := false;
     failure_str := [] |}.

(** The first call returns junk, every later call fails. *)
Definition exhausted_client : model_client :=
  fun n _ => match n with O => inr junk_completion | S _ => inl quota end.

(** The first call returns junk, the second is interrupted. *)
Definition interrupted_client : model_client :=
  fun n _ => match n with O => inr junk_completion | S _ => inl interrupt end.

(** A long text of 1001 five-letter words, and one of a single word of 4001
    letters. *)
Definition long_notes : str := concat (repeat (lit "abcd ") 1001).

Definition one_long_word : str := repeat 97 4001.

(** A client that answers every prompt with the same short summary. *)
Definition summary_client : model_client := fun _ _ => inr (lit "A summary.").

(** A client whose second call fails. *)
Definition second_call_fails : model_client :=
  fun n _ => match n with 1%nat => inl quota | _ => inr (lit "A summary.") end.

(** What the loop of [chunk_text] adds up in [current_length]: each word
    of the current chunk with one more for its space. *)
Fixpoint words_length (words : list str) : Z :=
  match words with
  | [] => 0
  | word :: rest => (Z.of_nat (length word) + 1 + words_length rest)%Z
  end.

(** The words of one chunk respect the budget, unless the chunk is a single
    word (or the empty chunk). *)
Definition within_budget (max_length : Z) (group : list str) : Prop :=
  (length group <= 1)%nat \/ (words_length group <= max_length)%Z.

(** The code points of the class [control_characters]. *)
Definition is_control (c : codepoint) : bool :=
  between 0 8 c || between 11 12 c || between 14 31 c || between 127 159 c.

(** A string neither begins nor ends with white space. *)
Definition trimmed (s : str) : Prop :=
  (forall c rest, s = c :: rest -> isspace c = false)
  /\ (forall c front, s = front ++ [c] -> isspace c = false).

(** Every run of white space replaced by one space, read from left to
    right; [in_run] tells that the character before was white space. *)
Fixpoint squeeze (in_run : bool) (s : str) : str :=
  match s with
  | [] => []
  | c :: rest =>
      if isspace c
      then if in_run then squeeze true rest else 32 :: squeeze true rest
      else c :: squeeze false rest
  end.

(** The number of white-space characters a string begins with. *)
Fixpoint leading_spaces (s : str) : nat :=
  match s with
  | c :: rest => if isspace c then S (leading_spaces rest) else 0
  | [] => 0
  end.

Fixpoint ends_with_space (s : str) : bool :=
  match s with
  | [] => false
  | [c] => isspace c
  | _ :: rest => ends_with_space rest
  end.

(** The texts of a record carry no white space at either end. *)
Definition trimmed_fields (q : QuizQuestion) : Prop :=
  trimmed (question q)
  /\ match options q with
     | Some opts => Forall trimmed opts
     | None => True
     end
  /\ trimmed (correct_answer q).

(** [block] is a piece of [s]: some of its characters in a row. *)
Definition piece_of (block s : str) : Prop :=
  exists before after, s = before ++ block ++ after.

(** ** Notions of the round trip *)

(** [f] finds nothing at any position of [x] when [s] follows [x]. *)
Fixpoint fails_along {R : Type} (f : str -> option R) (x s : str) : Prop :=
  match x with
  | [] => True
  | _ :: x' => f (x ++ s) = None /\ fails_along f x' s
  end.

(** What is left of [s] after the literal text [P], if [s] begins with it. *)
Fixpoint strip_prefix (fl : flags) (P s : str) : option str :=
  match P with
  | [] => Some s
  | p :: P' =>
      match s with
      | c :: s' =>
          if atom_match fl (Chr p) c then strip_prefix fl P' s' else None
      | [] => None
      end
  end.

(** Whether the lookahead [(?=\n[A-D]\)|Correct:|$)] holds at the head of
    [s]. *)
Definition at_marker (s : str) : option unit :=
  rmatch re_DOTALL until_marker s None (fun _ _ => Some tt).

(** A text the format of the prompt can carry as a question or an option:
    not empty, trimmed, and free of the three characters the patterns key
    on (newline, closing parenthesis, colon). *)
Definition plain (s : str) : Prop :=
  s <> [] /\ trimmed s /\ Forall (fun c => c <> 10 /\ c <> 41 /\ c <> 58) s.

(** A true/false block in the format the prompt of [generate_quiz] asks
    for. *)
Definition answer_text (answer : bool) : str :=
  if answer then lit "True" else lit "False".

Definition true_false_block (q : str) (answer : bool) : str :=
  lit "Q: " ++ q ++ newline :: lit "Correct: " ++ answer_text answer.

Definition true_false_record (q : str) (answer : bool) : QuizQuestion :=
  {| question := q;
     options := None;
     correct_answer := answer_text answer;
     type := lit "true_false" |}.

(** A multiple-choice block in the format the prompt asks for; [correct]
    is the position (0 to 3) of the right option. *)
Definition option_letter (correct : nat) : codepoint :=
  nth correct [65; 66; 67; 68] 65.

Definition multiple_choice_block (q a b c d : str) (correct : nat) : str :=
  lit "Q: " ++ q
  ++ newline :: lit "A) " ++ a
  ++ newline :: lit "B) " ++ b
  ++ newline :: lit "C) " ++ c
  ++ newline :: lit "D) " ++ d
  ++ newline :: lit "Correct: " ++ [option_letter correct].

Definition multiple_choice_record (q a b c d : str) (correct : nat)
  : QuizQuestion :=
  {| question := q;
     options := Some [a; b; c; d];
     correct_answer := nth correct [a; b; c; d] [];
     type := lit "mcq" |}.

(** The questions a completion is written from: what the prompt asks the
    model to write, one block per question, a newline between blocks. *)
Inductive quiz_item : Type :=
| TrueFalseItem (q : str) (answer : bool)
| MultipleChoiceItem (q a b c d : str) (correct : nat).

Definition item_block (item : quiz_item) : str :=
  match item with
  | TrueFalseItem q answer => true_false_block q answer
  | MultipleChoiceItem q a b c d correct =>
      multiple_choice_block q a b c d correct
  end.

Definition item_record (item : quiz_item) : QuizQuestion :=
  match item with
  | TrueFalseItem q answer => true_false_record q answer
  | MultipleChoiceItem q a b c d correct =>
      multiple_choice_record q a b c d correct
  end.

Definition item_plain (item : quiz_item) : Prop :=
  match item with
  | TrueFalseItem q _ => plain q
  | MultipleChoiceItem q a b c d correct =>
      plain q /\ plain a /\ plain b /\ plain c /\ plain d
      /\ (correct < 4)%nat
  end.

Definition completion_of (items : list quiz_item) : str :=
  str_join [newline] (map item_block items).

(** The continuation [match_at] ends a pattern with. *)
Definition final (s1 : str) (g : option str) : option rematch :=
  Some {| m_end := s1; m_group := g |}.

(** The two questions of the scenario of the specification. *)
Definition sample_items : list quiz_item :=
  [ TrueFalseItem (lit "The sky is blue.") true;
    MultipleChoiceItem (lit "What is 2+2?")
      (lit "3") (lit "4") (lit "5") (lit "6") 1 ].

(** * Properties *)

(** ** Strings *)

Lemma str_eqb_eq a b : str_eqb a b = true <-> a = b.
Proof.
  unfold str_eqb. destruct (list_eq_dec N.eq_dec a b); split; congruence.
Qed.

Lemma str_eqb_refl a : str_eqb a a = true.
Proof. now apply str_eqb_eq. Qed.

Lemma str_eqb_neq a b : str_eqb a b = false <-> a <> b.
Proof.
  unfold str_eqb. destruct (list_eq_dec N.eq_dec a b); split; congruence.
Qed.

Lemma isnil_true {A : Type} (l : list A) : isnil l = true <-> l = [].
Proof. destruct l; simpl; split; congruence. Qed.

Example str_split_ex :
  str_split (lit "  ab   c
d ") = [lit "ab"; lit "c"; lit "d"].
Proof. reflexivity. Qed.

Example str_strip_ex : str_strip (lit "  a b  ") = lit "a b".
Proof. reflexivity. Qed.

Example str_of_int_ex :
  str_of_int (-12)%Z = lit "-12" /\ str_of_int 0%Z = lit "0".
Proof. split; reflexivity. Qed.

(** ** The retry loop *)

Section RetryFacts.
Variable client : model_client.
Variables (text : str) (num_questions : Z) (question_type : str).

Abbreviation prompt := (quiz_prompt text num_questions question_type).
Abbreviation threshold := (relaxed_threshold num_questions).
Abbreviation rejected_run := (all_rejected client text num_questions question_type).

Lemma generate_quiz_returns calls completion :
  client calls prompt = inr completion ->
  generate_quiz client text num_questions question_type calls
  = (Returned completion, S calls).
Proof.
  intros H. unfold generate_quiz, try_except, bind, generate_content.
  now rewrite H.
Qed.

Lemma generate_quiz_raises calls f :
  client calls prompt = inl f ->
  generate_quiz client text num_questions question_type calls
  = (Raised (if failure_is_exception f
             then Exception (lit "Quiz generation failed: " ++ failure_str f)
             else ClientError f),
     S calls).
Proof.
  intros H. unfold generate_quiz, try_except, bind, generate_content.
  rewrite H. simpl. now destruct (failure_is_exception f).
Qed.

(** One iteration whose records validate returns them. *)
Lemma retry_accepts remaining questions calls completion :
  client calls prompt = inr completion ->
  validate_quiz_questions (parse_quiz_response completion question_type)
    threshold = true ->
  retry client text num_questions question_type (S remaining) questions calls
  = (Returned (parse_quiz_response completion question_type), S calls).
Proof.
  intros Hc Hv. simpl. unfold bind.
  rewrite (generate_quiz_returns Hc).
  unfold relaxed_threshold in Hv. now rewrite Hv.
Qed.

(** One iteration whose records do not validate goes on with them bound. *)
Lemma retry_rejects remaining questions calls completion :
  client calls prompt = inr completion ->
  validate_quiz_questions (parse_quiz_response completion question_type)
    threshold = false ->
  retry client text num_questions question_type (S remaining) questions calls
  = retry client text num_questions question_type remaining
      (Some (parse_quiz_response completion question_type)) (S calls).
Proof.
  intros Hc Hv. simpl. unfold bind.
  rewrite (generate_quiz_returns Hc).
  unfold relaxed_threshold in Hv. now rewrite Hv.
Qed.

(** An iteration whose model call fails leaves the loop with the exception
    of [generate_quiz]. *)
Lemma retry_fails remaining questions calls f :
  client calls prompt = inl f ->
  retry client text num_questions question_type (S remaining) questions calls
  = (Raised (if failure_is_exception f
             then Exception (lit "Quiz generation failed: " ++ failure_str f)
             else ClientError f),
     S calls).
Proof.
  intros Hc. simpl. unfold bind. now rewrite (generate_quiz_raises Hc).
Qed.

Lemma all_rejected_tail completion calls n :
  rejected_run completion calls (S n) -> rejected_run completion (S calls) n.
Proof.
  intros H i Hi. replace (S calls + i)%nat with (calls + S i)%nat by lia.
  apply H. lia.
Qed.

(** After [n] rejected attempts the loop stands at its [n]-th iteration. *)
Lemma retry_skips completion n : forall remaining questions calls,
  rejected_run completion calls (S n) ->
  retry client text num_questions question_type (S n + remaining)%nat questions calls
  = retry client text num_questions question_type remaining
      (Some (parse_quiz_response (completion (calls + n)%nat) question_type))
      (S calls + n)%nat.
Proof.
  induction n as [|n IH]; intros remaining questions calls H.
  - destruct (H 0%nat) as [Hc Hv]; [lia|].
    rewrite !Nat.add_0_r in *. change (1 + remaining)%nat with (S remaining).
    rewrite (retry_rejects _ _ Hc Hv). reflexivity.
  - destruct (H 0%nat) as [Hc Hv]; [lia|].
    rewrite !Nat.add_0_r in Hc, Hv.
    change (S (S n) + remaining)%nat with (S (S n + remaining)).
    rewrite (retry_rejects _ _ Hc Hv).
    rewrite IH by now apply all_rejected_tail.
    replace (S calls + n)%nat with (calls + S n)%nat by lia.
    replace (S (S calls) + n)%nat with (S calls + S n)%nat by lia.
    reflexivity.
Qed.
End RetryFacts.

(** With no model call failing, the loop returns as soon as it has run once
    or has records bound. *)
Lemma retry_returns client text num_questions question_type :
  (forall calls prompt, exists completion, client calls prompt = inr completion) ->
  forall attempts questions calls,
    (attempts = 0%nat -> questions <> None) ->
    exists qs calls',
      retry client text num_questions question_type attempts questions calls
      = (Returned qs, calls').
Proof.
  intros Hclient. induction attempts as [|n IH]; intros questions calls Hq.
  - destruct questions as [qs|]; [|now destruct Hq].
    exists qs, calls. reflexivity.
  - destruct (Hclient calls (quiz_prompt text num_questions question_type))
      as [completion Hc].
    destruct (validate_quiz_questions
                (parse_quiz_response completion question_type)
                (relaxed_threshold num_questions)) eqn:Hv.
    + rewrite (retry_accepts _ _ _ _ n questions _ Hc Hv). eauto.
    + rewrite (retry_rejects _ _ _ _ n questions _ Hc Hv). apply IH. discriminate.
Qed.

(** C2.  If the records parsed from the first completion validate against
    [max(1, num_questions - 2)], [regenerate_if_needed] issues exactly one
    model call (the call counter goes from [calls] to [S calls]) and returns
    exactly those records. *)
Theorem first_valid_attempt_is_returned
    (client : model_client) (text : str) (num_questions : Z)
    (question_type : str) (max_attempts : Z) (calls : nat) (completion : str) :
  (1 <= max_attempts)%Z ->
  client calls (quiz_prompt text num_questions question_type) = inr completion ->
  validate_quiz_questions (parse_quiz_response completion question_type)
    (Z.max 1 (num_questions - 2)) = true ->
  regenerate_if_needed client text num_questions question_type max_attempts calls
  = (Returned (parse_quiz_response completion question_type), S calls).
Proof.
  intros Hm Hc Hv. unfold regenerate_if_needed.
  destruct (Z.to_nat max_attempts) as [|remaining] eqn:E; [lia|].
  now apply retry_accepts.
Qed.

(** C3.  If every one of the [max_attempts >= 1] attempts returns a
    completion (no model call fails) and none of the parsed record sets
    validates, [regenerate_if_needed] returns, without raising, the records
    parsed from the last attempt's completion, after [max_attempts] calls. *)
Theorem exhausted_attempts_return_last
    (client : model_client) (text : str) (num_questions : Z)
    (question_type : str) (max_attempts : Z) (calls : nat)
    (completion : nat -> str) :
  (1 <= max_attempts)%Z ->
  all_rejected client text num_questions question_type completion calls
    (Z.to_nat max_attempts) ->
  regenerate_if_needed client text num_questions question_type max_attempts calls
  = (Returned
       (parse_quiz_response
          (completion (calls + (Z.to_nat max_attempts - 1))%nat) question_type),
     (calls + Z.to_nat max_attempts)%nat).
Proof.
  intros Hm Hall. unfold regenerate_if_needed.
  destruct (Z.to_nat max_attempts) as [|n] eqn:E; [lia|].
  replace (S n) with (S n + 0)%nat at 1 by lia.
  rewrite (retry_skips 0 None Hall). simpl retry. unfold ret.
  replace (S n - 1)%nat with n by lia.
  f_equal. lia.
Qed.

(** C7.  If attempt [k] (counted from 0, below [max_attempts]) is reached,
    the earlier attempts having returned completions that did not validate,
    and its model call fails with [f], then what [generate_quiz] raises for
    that call (a plain [Exception] whose message is "Quiz generation
    failed: " followed by [str] of the failure when the class of the
    failure derives from [Exception], the failure itself otherwise) is
    raised by [regenerate_if_needed] unmodified: the loop has no handler of
    its own, the failure is not taken for a failed validation, and the call
    counter stops at [k + 1], no further attempt being made. *)
Theorem model_failure_leaves_the_loop
    (client : model_client) (text : str) (num_questions : Z)
    (question_type : str) (max_attempts : Z) (calls k : nat)
    (completion : nat -> str) (f : failure) :
  (k < Z.to_nat max_attempts)%nat ->
  all_rejected client text num_questions question_type completion calls k ->
  client (calls + k)%nat (quiz_prompt text num_questions question_type) = inl f ->
  exists e,
    generate_quiz client text num_questions question_type (calls + k)%nat
    = (Raised e, S (calls + k))
    /\ e = (if failure_is_exception f
            then Exception (lit "Quiz generation failed: " ++ failure_str f)
            else ClientError f)
    /\ regenerate_if_needed client text num_questions question_type
         max_attempts calls
       = (Raised e, S (calls + k)).
Proof.
  intros Hk Hall Hf.
  exists (if failure_is_exception f
          then Exception (lit "Quiz generation failed: " ++ failure_str f)
          else ClientError f).
  split; [apply generate_quiz_raises; exact Hf|].
  split; [reflexivity|]. unfold regenerate_if_needed.
  destruct (Z.to_nat max_attempts) as [|m]; [lia|].
  destruct k as [|k].
  - rewrite Nat.add_0_r in *. now apply retry_fails.
  - replace (S m) with (S k + S (m - S k))%nat by lia.
    rewrite (retry_skips (S (m - S k)) None Hall).
    replace (S calls + k)%nat with (calls + S k)%nat by lia.
    now apply retry_fails.
Qed.

(** C10.  With [max_attempts = 0] the loop body never runs, the local
    [questions] is never bound, and the final [return questions] raises
    instead of returning records, with no model call made; with
    [max_attempts >= 1] and no model call failing a record list is
    returned. *)
Theorem zero_attempts_is_an_error
    (client : model_client) (text : str) (num_questions : Z)
    (question_type : str) (calls : nat) :
  regenerate_if_needed client text num_questions question_type 0 calls
  = (Raised (UnboundLocalError "questions"), calls)
  /\ forall max_attempts,
       (1 <= max_attempts)%Z ->
       (forall n prompt, exists completion, client n prompt = inr completion) ->
       exists qs calls',
         regenerate_if_needed client text num_questions question_type
           max_attempts calls
         = (Returned qs, calls').
Proof.
  split; [reflexivity|]. intros max_attempts Hm Hclient.
  unfold regenerate_if_needed. apply retry_returns; [assumption|lia].
Qed.

(** A non-positive [max_attempts] behaves like zero. *)
Lemma no_attempts_is_an_error client text num_questions question_type
    max_attempts calls :
  (max_attempts <= 0)%Z ->
  regenerate_if_needed client text num_questions question_type max_attempts calls
  = (Raised (UnboundLocalError "questions"), calls).
Proof.
  intros H. unfold regenerate_if_needed.
  now replace (Z.to_nat max_attempts) with 0%nat by lia.
Qed.

Lemma first_valid_attempt_witness :
  regenerate_if_needed sample_client notes 3 (lit "mixed") 2 0%nat
  = (Returned (parse_quiz_response sample_completion (lit "mixed")), 1%nat).
Proof.
  apply (@first_valid_attempt_is_returned
           sample_client notes 3%Z (lit "mixed") 2%Z 0%nat sample_completion);
    [lia | reflexivity | reflexivity].
Defined.

Lemma exhausted_attempts_witness :
  regenerate_if_needed junk_client notes 3 (lit "mixed") 2 0%nat
  = (Returned (parse_quiz_response junk_completion (lit "mixed")), 2%nat).
Proof.
  apply (@exhausted_attempts_return_last
           junk_client notes 3%Z (lit "mixed") 2%Z 0%nat
           (fun _ => junk_completion));
    [lia | intros i Hi; split; reflexivity].
Defined.

Lemma model_failure_witness :
  exists e,
    generate_quiz exhausted_client notes 3 (lit "mixed") 1%nat
    = (Raised e, 2%nat)
    /\ e = (if failure_is_exception quota
            then Exception (lit "Quiz generation failed: " ++ failure_str quota)
            else ClientError quota)
    /\ regenerate_if_needed exhausted_client notes 3 (lit "mixed") 2 0%nat
       = (Raised e, 2%nat).
Proof.
  apply (@model_failure_leaves_the_loop
           exhausted_client notes 3%Z (lit "mixed") 2%Z 0%nat 1%nat
           (fun _ => junk_completion) quota);
    [simpl; lia
    | intros i Hi; destruct i as [|i]; [split; reflexivity | lia]
    | reflexivity].
Defined.

(** The two kinds of failure of a model call, seen from the caller of
    [regenerate_if_needed]: an exception of the library reaches it as the
    plain [Exception] of [generate_quiz], an interrupt as it was raised. *)
Example quota_failure_reaches_the_caller :
  regenerate_if_needed exhausted_client notes 3 (lit "mixed") 2 0%nat
  = (Raised (Exception (lit "Quiz generation failed: quota")), 2%nat).
Proof. reflexivity. Qed.

Example interrupt_reaches_the_caller :
  regenerate_if_needed interrupted_client notes 3 (lit "mixed") 2 0%nat
  = (Raised (ClientError interrupt), 2%nat).
Proof. reflexivity. Qed.

Lemma one_attempt_witness :
  exists qs calls',
    regenerate_if_needed sample_client notes 3 (lit "mixed") 1 0%nat
    = (Returned qs, calls').
Proof.
  apply (proj2 (@zero_attempts_is_an_error
                  sample_client notes 3%Z (lit "mixed") 0%nat) 1%Z);
    [lia | intros n prompt; exists sample_completion; reflexivity].
Defined.

(** ** The validator *)

Lemma rejected_spec (q : QuizQuestion) :
  rejected q = true <->
  (question q = [] \/ correct_answer q = [])
  \/ (type q = lit "mcq" /\ option_count q <> 4%nat).
Proof.
  unfold rejected, option_count.
  destruct (question q) as [|c qtext]; simpl; [intuition|].
  destruct (correct_answer q) as [|c' atext]; simpl; [intuition|].
  destruct (str_eqb (type q) (lit "mcq")) eqn:Ht.
  - apply str_eqb_eq in Ht.
    destruct (options q) as [opts|].
    + destruct opts as [|o opts]; simpl.
      * split; [intros _; right; split; [assumption|discriminate]|reflexivity].
      * rewrite negb_true_iff, Nat.eqb_neq.
        split; [intros H; right; auto|].
        intros [[H|H]|[_ H]]; [discriminate|discriminate|].
        simpl in *. lia.
    + split; [intros _; right; split; [assumption|discriminate]|reflexivity].
  - apply str_eqb_neq in Ht. split; [discriminate|].
    intros [[H|H]|[H _]]; solve [discriminate | contradiction].
Qed.

Lemma validate_each_false (questions : list QuizQuestion) :
  validate_each questions = false <->
  exists q, In q questions /\ rejected q = true.
Proof.
  induction questions as [|q rest IH]; simpl.
  - split; [discriminate|]. intros [q [[] _]].
  - destruct (rejected q) eqn:Hq.
    + split; [|reflexivity]. intros _. exists q. auto.
    + rewrite IH. split.
      * intros [q' [Hin Hr]]. exists q'. auto.
      * intros [q' [[->|Hin] Hr]]; [congruence|]. exists q'. auto.
Qed.

(** C4.  [validate_quiz_questions] returns false exactly when there are
    fewer than [min_questions] records, or some record has an empty question
    or an empty correct answer, or some record of type mcq does not have 4
    options.  A record of another type is never rejected for its options:
    the option count occurs only under [type q = "mcq"].  The function is a
    function of its two arguments alone. *)
Theorem validate_quiz_questions_spec
    (questions : list QuizQuestion) (min_questions : Z) :
  validate_quiz_questions questions min_questions = false <->
  (Z.of_nat (length questions) < min_questions)%Z
  \/ (exists q, In q questions /\ (question q = [] \/ correct_answer q = []))
  \/ (exists q, In q questions /\ type q = lit "mcq"
                /\ option_count q <> 4%nat).
Proof.
  unfold validate_quiz_questions.
  destruct (Z.ltb_spec (Z.of_nat (length questions)) min_questions) as [Hlt|Hge].
  - split; [auto|reflexivity].
  - rewrite validate_each_false. split.
    + intros [q [Hin Hr]]. apply rejected_spec in Hr.
      destruct Hr as [Hr|Hr]; right; [left|right]; exists q; auto.
    + intros [Hlt|[[q [Hin Hr]]|[q [Hin Hr]]]]; [lia| |];
        exists q; (split; [assumption|]); apply rejected_spec; auto.
Qed.

Example validate_empty : validate_quiz_questions [] 3 = false.
Proof. reflexivity. Qed.

(** ** The parser ignores the expected question type *)

(** C9.  The records [parse_quiz_response] returns do not depend on its
    [question_type] argument. *)
Theorem parse_quiz_response_ignores_question_type
    (quiz_text t1 t2 : str) :
  parse_quiz_response quiz_text t1 = parse_quiz_response quiz_text t2.
Proof. reflexivity. Qed.

(** ** The text chunker *)

Lemma str_join_cons sep (p : str) (rest : list str) :
  rest <> [] -> str_join sep (p :: rest) = p ++ sep ++ str_join sep rest.
Proof. destruct rest; [congruence|reflexivity]. Qed.

Lemma str_join_app sep (a b : list str) :
  a <> [] -> b <> [] ->
  str_join sep (a ++ b) = str_join sep a ++ sep ++ str_join sep b.
Proof.
  intros Ha Hb. induction a as [|p a IH]; [congruence|].
  destruct a as [|p' a].
  - simpl app. now rewrite str_join_cons.
  - change ((p :: p' :: a) ++ b) with (p :: ((p' :: a) ++ b)).
    rewrite !str_join_cons by discriminate.
    rewrite IH by discriminate. now rewrite <- !app_assoc.
Qed.

(** Two adjacent chunks join like the chunk of their words together. *)
Lemma str_join_merge sep (chunks : list str) (a b : list str) :
  a <> [] -> b <> [] ->
  str_join sep (chunks ++ [str_join sep a; str_join sep b])
  = str_join sep (chunks ++ [str_join sep (a ++ b)]).
Proof.
  intros Ha Hb. rewrite (str_join_app sep Ha Hb).
  induction chunks as [|c chunks IH]; [reflexivity|].
  simpl app. rewrite !str_join_cons by (now destruct chunks).
  now rewrite IH.
Qed.

(** Once the current chunk holds a word, the chunks joined with single
    spaces are the chunks so far followed by all remaining words. *)
Lemma chunk_words_join max_length (words : list str) :
  forall chunks current_chunk current_length,
    current_chunk <> [] ->
    str_join space
      (finish_chunks
         (chunk_words max_length words chunks current_chunk current_length))
    = str_join space (chunks ++ [str_join space (current_chunk ++ words)]).
Proof.
  induction words as [|word rest IH]; intros chunks cur len Hcur.
  - simpl. rewrite app_nil_r. now destruct cur.
  - simpl chunk_words.
    destruct (len + (Z.of_nat (length word) + 1) >? max_length)%Z.
    + rewrite IH by discriminate. rewrite <- app_assoc.
      change ([str_join space cur] ++ [str_join space ([word] ++ rest)])
        with [str_join space cur; str_join space (word :: rest)].
      apply str_join_merge; [assumption|discriminate].
    + rewrite IH by (now destruct cur). now rewrite <- app_assoc.
Qed.

(** What the chunks of [chunk_text] join to, for every input: the
    white-space-collapsed text, behind one extra space when the first word
    overflows (the loop then appends the empty current chunk). *)
Lemma chunk_text_join (text : str) (max_length : Z) :
  str_join space (chunk_text text max_length)
  = (if first_word_overflows text max_length then space else [])
    ++ whitespace_collapsed text.
Proof.
  unfold chunk_text, first_word_overflows, whitespace_collapsed.
  change (let (chunks, current_chunk) :=
            chunk_words max_length (str_split text) [] [] 0%Z in
          if isnil current_chunk then chunks
          else chunks ++ [str_join space current_chunk])
    with (finish_chunks (chunk_words max_length (str_split text) [] [] 0%Z)).
  destruct (str_split text) as [|word rest]; [reflexivity|].
  simpl chunk_words.
  destruct (0 + (Z.of_nat (length word) + 1) >? max_length)%Z eqn:E;
    rewrite Z.add_0_l in E; rewrite E;
    rewrite chunk_words_join by discriminate; reflexivity.
Qed.

(** When the first word fits (or there is no word), the chunks joined with
    single spaces are the white-space-collapsed text. *)
Lemma chunk_text_join_fits (text : str) (max_length : Z) :
  first_word_overflows text max_length = false ->
  str_join space (chunk_text text max_length) = whitespace_collapsed text.
Proof. intros H. now rewrite chunk_text_join, H. Qed.

(** C5, at the failing input.  For the text "abc" and [max_length = 2] the
    only word is longer than the budget: the loop appends the still empty
    current chunk, [chunk_text] returns an empty chunk before "abc", and the
    chunks joined with single spaces are " abc", not the collapsed text
    "abc". *)
Theorem chunk_text_overlong_first_word :
  chunk_text (lit "abc") 2 = [[]; lit "abc"]
  /\ str_join space (chunk_text (lit "abc") 2) = lit " abc"
  /\ whitespace_collapsed (lit "abc") = lit "abc"
  /\ str_join space (chunk_text (lit "abc") 2)
     <> whitespace_collapsed (lit "abc").
Proof. repeat split; try reflexivity. discriminate. Qed.

(** The same for every input whose first word overflows. *)
Lemma chunk_text_join_overflows (text : str) (max_length : Z) :
  first_word_overflows text max_length = true ->
  str_join space (chunk_text text max_length)
  <> whitespace_collapsed text.
Proof.
  intros H. rewrite chunk_text_join, H. intros E.
  apply (f_equal (@length codepoint)) in E. rewrite length_app in E.
  simpl in E. lia.
Qed.

(** ** The matcher returns only matches of the pattern *)

Lemma firstn_consumed (w rest : str) :
  firstn (length (w ++ rest) - length rest) (w ++ rest) = w.
Proof.
  rewrite length_app.
  replace (length w + length rest - length rest)%nat with (length w) by lia.
  rewrite firstn_app, Nat.sub_diag, firstn_all. simpl. apply app_nil_r.
Qed.

Section RepetitionFacts.
Context {R : Type}.
Variable p : codepoint -> bool.
Variable k : str -> option R.

Lemma greedy_star_sound (s : str) (res : R) :
  greedy_star p k s = Some res ->
  exists w rest,
    s = w ++ rest /\ Forall (fun c => p c = true) w /\ k rest = Some res.
Proof.
  induction s as [|c s IH]; simpl.
  - intros H. exists [], []. auto.
  - destruct (p c) eqn:Hp.
    + destruct (greedy_star p k s) as [x|] eqn:E.
      * intros H. injection H as ->.
        destruct (IH eq_refl) as (w & rest & -> & Hw & Hk).
        exists (c :: w), rest. auto.
      * intros H. exists [], (c :: s). auto.
    + intros H. exists [], (c :: s). auto.
Qed.

Lemma lazy_star_sound (s : str) (res : R) :
  lazy_star p k s = Some res ->
  exists w rest,
    s = w ++ rest /\ Forall (fun c => p c = true) w /\ k rest = Some res.
Proof.
  induction s as [|c s IH]; simpl.
  - destruct (k []) as [x|] eqn:E; [|discriminate].
    intros H. injection H as ->. exists [], []. auto.
  - destruct (k (c :: s)) as [x|] eqn:E.
    + intros H. injection H as ->. exists [], (c :: s). auto.
    + destruct (p c) eqn:Hp; [|discriminate]. intros H.
      destruct (IH H) as (w & rest & -> & Hw & Hk).
      exists (c :: w), rest. auto.
Qed.

Lemma greedy_plus_sound (s : str) (res : R) :
  greedy_plus p k s = Some res ->
  exists w rest,
    s = w ++ rest /\ w <> [] /\ Forall (fun c => p c = true) w
    /\ k rest = Some res.
Proof.
  destruct s as [|c s]; simpl; [discriminate|].
  destruct (p c) eqn:Hp; [|discriminate]. intros H.
  destruct (greedy_star_sound _ H) as (w & rest & -> & Hw & Hk).
  exists (c :: w), rest. repeat split; auto. discriminate.
Qed.

Lemma lazy_plus_sound (s : str) (res : R) :
  lazy_plus p k s = Some res ->
  exists w rest,
    s = w ++ rest /\ w <> [] /\ Forall (fun c => p c = true) w
    /\ k rest = Some res.
Proof.
  destruct s as [|c s]; simpl; [discriminate|].
  destruct (p c) eqn:Hp; [|discriminate]. intros H.
  destruct (lazy_star_sound _ H) as (w & rest & -> & Hw & Hk).
  exists (c :: w), rest. repeat split; auto. discriminate.
Qed.
End RepetitionFacts.

Create HintDb regex.
#[local] Hint Constructors Matches : regex.

Lemma rmatch_sound (fl : flags) (r : regex) :
  forall (R : Type) (s : str) (g : option str)
         (k : str -> option str -> option R) (res : R),
    rmatch fl r s g k = Some res ->
    exists w rest g',
      s = w ++ rest /\ Matches fl r w rest g g' /\ k rest g' = Some res.
Proof.
  induction r as [|a|r1 IH1 r2 IH2|r1 IH1 r2 IH2|a|a|a|r IH|r IH|];
    intros R s g k res H; simpl in H.
  - exists [], s, g. auto with regex.
  - destruct s as [|c s]; [discriminate|].
    destruct (atom_match fl a c) eqn:Ha; [|discriminate].
    exists [c], s, g. auto with regex.
  - apply IH1 in H. destruct H as (w1 & s1 & g1 & -> & M1 & H).
    apply IH2 in H. destruct H as (w2 & rest & g2 & -> & M2 & H).
    exists (w1 ++ w2), rest, g2.
    split; [apply app_assoc|]. split; [econstructor; eassumption|assumption].
  - destruct (rmatch fl r1 s g k) as [x|] eqn:E.
    + injection H as ->. apply IH1 in E.
      destruct E as (w & rest & g' & -> & M & Hk).
      exists w, rest, g'. auto with regex.
    + apply IH2 in H. destruct H as (w & rest & g' & -> & M & Hk).
      exists w, rest, g'. auto with regex.
  - apply greedy_star_sound in H. destruct H as (w & rest & -> & Hw & Hk).
    exists w, rest, g. auto with regex.
  - apply greedy_plus_sound in H.
    destruct H as (w & rest & -> & Hne & Hw & Hk).
    exists w, rest, g. auto with regex.
  - apply lazy_plus_sound in H.
    destruct H as (w & rest & -> & Hne & Hw & Hk).
    exists w, rest, g. auto with regex.
  - apply IH in H. destruct H as (w & rest & g1 & -> & M & Hk).
    rewrite firstn_consumed in Hk. exists w, rest, (Some w).
    split; [reflexivity|]. split; [econstructor; eassumption|assumption].
  - destruct (rmatch fl r s g (fun _ _ => Some tt)) as [[]|] eqn:E;
      [|discriminate].
    apply IH in E. destruct E as (w & rest & g1 & -> & M & _).
    exists [], (w ++ rest), g.
    split; [reflexivity|]. split; [econstructor; eassumption|assumption].
  - destruct s as [|c [|d s]].
    + exists [], [], g. auto with regex.
    + destruct (N.eqb_spec c 10) as [->|]; [|discriminate].
      exists [], [10], g. auto with regex.
    + discriminate.
Qed.

Lemma match_at_sound fl r s m :
  match_at fl r s = Some m ->
  exists w, s = w ++ m_end m /\ Matches fl r w (m_end m) None (m_group m).
Proof.
  unfold match_at. intros H. apply rmatch_sound in H.
  destruct H as (w & rest & g' & -> & M & H). injection H as <-.
  exists w. auto.
Qed.

Lemma re_search_sound fl r s m :
  re_search fl r s = Some m ->
  exists before w,
    s = before ++ w ++ m_end m
    /\ Matches fl r w (m_end m) None (m_group m).
Proof.
  induction s as [|c s IH]; simpl.
  - destruct (match_at fl r []) as [x|] eqn:E; [|discriminate].
    intros H. injection H as ->. apply match_at_sound in E.
    destruct E as (w & E & M). exists [], w. auto.
  - destruct (match_at fl r (c :: s)) as [x|] eqn:E.
    + intros H. injection H as ->. apply match_at_sound in E.
      destruct E as (w & E & M). exists [], w. auto.
    + intros H. destruct (IH H) as (before & w & -> & M).
      exists (c :: before), w. auto.
Qed.

Lemma Matches_binds fl r w rest g g' :
  Matches fl r w rest g g' ->
  binds_group r = true \/ g <> None -> g' <> None.
Proof.
  induction 1; simpl; intros [Hb|Hg];
    try discriminate; try assumption;
    try (apply orb_true_iff in Hb; destruct Hb);
    try (apply andb_true_iff in Hb; destruct Hb);
    auto.
Qed.

(** A pattern whose every match goes through the group yields match objects
    whose [group(1)] is a string. *)
Lemma re_search_group fl r s m :
  binds_group r = true ->
  re_search fl r s = Some m ->
  exists w, m_group m = Some w.
Proof.
  intros Hb H. apply re_search_sound in H.
  destruct H as (before & w & _ & M).
  apply Matches_binds in M; [|now left].
  destruct (m_group m) as [x|]; [eauto|congruence].
Qed.

(** ** What the patterns capture *)

Unset Implicit Arguments.

Ltac cp_cases :=
  repeat match goal with
         | H : context [N.leb ?a ?b] |- _ => destruct (N.leb_spec a b); simpl in H
         | H : context [N.eqb ?a ?b] |- _ => destruct (N.eqb_spec a b); simpl in H
         | |- context [N.leb ?a ?b] => destruct (N.leb_spec a b); simpl
         | |- context [N.eqb ?a ?b] => destruct (N.eqb_spec a b); simpl
         end;
  try discriminate; try lia.

(** The code points the engine's lower-casing sends to a Basic Latin
    letter [l]: [l] itself and its capital, besides the Kelvin sign for k
    and the dotted capital I for i. *)
Lemma sre_lower_letter (c l : codepoint) :
  sre_lower c = l -> 97 <= l <= 122 ->
  c = l \/ c = l - 32 \/ (c = 8490 /\ l = 107) \/ (c = 304 /\ l = 105).
Proof. unfold sre_lower, between. intros H Hl. cp_cases. Qed.

(** Under IGNORECASE a pattern letter other than i, k and s stands for
    itself in either case. *)
Lemma ignorecase_letter (p c : codepoint) :
  atom_match re_IGNORECASE (Chr p) c = true ->
  97 <= sre_lower p <= 122 ->
  sre_lower p <> 105 -> sre_lower p <> 107 -> sre_lower p <> 115 ->
  c = sre_lower p \/ c = sre_lower p - 32.
Proof.
  simpl. unfold in_folded, ignorecase_fixes. intros H Hl Hi Hk Hs.
  destruct (N.eqb_spec (sre_lower p) 105); [contradiction|].
  destruct (N.eqb_spec (sre_lower p) 115); [contradiction|].
  simpl in H. rewrite orb_false_r in H. apply N.eqb_eq in H.
  destruct (@sre_lower_letter c (sre_lower p) H Hl) as [E|[E|[[_ E]|[_ E]]]]; auto; contradiction.
Qed.

(** The pattern letter s also stands for U+017F. *)
Lemma ignorecase_s (c : codepoint) :
  atom_match re_IGNORECASE (Chr 115) c = true ->
  c = 115 \/ c = 83 \/ c = 383.
Proof.
  simpl. unfold in_folded, ignorecase_fixes, sre_lower, between. simpl.
  intros H. cp_cases.
Qed.

(** A pattern character without case stands for itself. *)
Lemma ignorecase_colon (c : codepoint) :
  atom_match re_IGNORECASE (Chr 58) c = true -> c = 58.
Proof.
  simpl. unfold in_folded, ignorecase_fixes, sre_lower, between. simpl.
  intros H. cp_cases.
Qed.

(** [[A-D]] under IGNORECASE: the four letters in either case. *)
Lemma ignorecase_A_to_D (c : codepoint) :
  atom_match re_IGNORECASE (Rng letter_A letter_D) c = true ->
  In c [65; 66; 67; 68; 97; 98; 99; 100].
Proof.
  unfold atom_match. simpl IGNORECASE. cbv iota.
  change (cp_range letter_A letter_D) with [65; 66; 67; 68].
  unfold existsb, in_folded, ignorecase_fixes.
  change (sre_lower 65) with 97. change (sre_lower 66) with 98.
  change (sre_lower 67) with 99. change (sre_lower 68) with 100.
  simpl. unfold sre_lower, between. intros H. cp_cases.
Qed.

Lemma Matches_text_of fl (t : str) : forall w rest g g',
  Matches fl (text_of t) w rest g g' ->
  g' = g /\ Forall2 (fun p c => atom_match fl (Chr p) c = true) t w.
Proof.
  induction t as [|p t IH]; intros w rest g g' H.
  - inversion H; subst. auto.
  - destruct t as [|p' t].
    + inversion H; subst. auto.
    + change (text_of (p :: p' :: t))
        with (Cat (Atom (Chr p)) (text_of (p' :: t))) in H.
      inversion H as [ | |r1 r2 w1 w2 rest' g0 g1 g2 M1 M2| | | | | | | | | ];
        subst.
      inversion M1; subst. apply IH in M2. destruct M2 as [-> F].
      split; [reflexivity|]. simpl. constructor; assumption.
Qed.

Ltac ignorecase_letter_in H :=
  apply ignorecase_letter in H;
  [ cbv in H | cbv; split; discriminate | cbv; discriminate
  | cbv; discriminate | cbv; discriminate ].

Ltac invert_Forall2 :=
  repeat match goal with
         | H : Forall2 _ (_ :: _) _ |- _ => inversion H; clear H; subst
         | H : Forall2 _ [] _ |- _ => inversion H; clear H; subst
         end.

(** The text captured by [(True|False)] under IGNORECASE capitalizes to
    "True", to "False", or to "False" with a long s. *)
Lemma capitalize_true_false (w rest : str) (g g' : option str) :
  Matches re_IGNORECASE (text "True" ||| text "False")%re w rest g g' ->
  true_false_answer (str_capitalize w).
Proof.
  unfold text, true_false_answer. intros H.
  inversion H as [ | | |r1 r2 w0 rest0 g0 g0' M|r1 r2 w0 rest0 g0 g0' M
                 | | | | | | | ]; subst.
  - apply (@Matches_text_of re_IGNORECASE [84; 114; 117; 101]) in M.
    destruct M as [_ F]. invert_Forall2.
    repeat match goal with
           | H : atom_match _ _ _ = true |- _ => ignorecase_letter_in H
           end.
    repeat match goal with H : _ \/ _ |- _ => destruct H end; subst;
      left; reflexivity.
  - apply (@Matches_text_of re_IGNORECASE [70; 97; 108; 115; 101]) in M.
    destruct M as [_ F]. invert_Forall2.
    match goal with
    | H : atom_match _ (Chr 115) _ = true |- _ => apply ignorecase_s in H
    end.
    repeat match goal with
           | H : atom_match _ _ _ = true |- _ => ignorecase_letter_in H
           end.
    repeat match goal with H : _ \/ _ |- _ => destruct H end; subst;
      first [ right; left; reflexivity | right; right; reflexivity ].
Qed.

(** [group(1)] of a match of [Correct:\s*(True|False)]. *)
Lemma correct_tf_group (block : str) (m : rematch) :
  re_search re_IGNORECASE correct_tf_pattern block = Some m ->
  exists w, m_group m = Some w /\ true_false_answer (str_capitalize w).
Proof.
  intros H. apply re_search_sound in H. destruct H as (before & w & _ & M).
  unfold correct_tf_pattern in M.
  inversion M as [ | |r1 r2 w1 w2 rest' g0 g1 g2 M1 M2| | | | | | | | | ];
    subst.
  inversion M2 as [ | |r1 r2 w3 w4 rest' g0 g3 g4 M3 M4| | | | | | | | | ];
    subst.
  inversion M4 as [ | | | | | | | |r w5 rest' g0 g5 M5| | | ]; subst.
  exists w4. split; [congruence|]. eapply capitalize_true_false; eassumption.
Qed.

(** [group(1)] of a match of [Correct:\s*([A-D])]: one of the four letters,
    in either case. *)
Lemma correct_letter_group (block : str) (m : rematch) :
  re_search re_IGNORECASE correct_letter_pattern block = Some m ->
  exists c, m_group m = Some [c] /\ In c [65; 66; 67; 68; 97; 98; 99; 100].
Proof.
  intros H. apply re_search_sound in H. destruct H as (before & w & _ & M).
  unfold correct_letter_pattern in M.
  inversion M as [ | |r1 r2 w1 w2 rest' g0 g1 g2 M1 M2| | | | | | | | | ];
    subst.
  inversion M2 as [ | |r1 r2 w3 w4 rest' g0 g3 g4 M3 M4| | | | | | | | | ];
    subst.
  inversion M4 as [ | | | | | | | |r w5 rest' g0 g5 M5| | | ]; subst.
  inversion M5; subst.
  exists c. split; [reflexivity|]. now apply ignorecase_A_to_D.
Qed.

(** ** One block *)

Lemma collect_options_total (block : str) (letters : list codepoint) :
  forall opts, exists opts', collect_options block letters opts = Some opts'.
Proof.
  induction letters as [|letter letters IH]; intros opts; simpl; [eauto|].
  destruct (re_search re_DOTALL (option_pattern letter) block) as [m|] eqn:E;
    [|apply IH].
  apply re_search_group in E; [|reflexivity]. destruct E as [w ->]. apply IH.
Qed.

(** The dictionary has the upper-cased letter, at an index below 4. *)
Lemma letter_index (c : codepoint) :
  In c [65; 66; 67; 68; 97; 98; 99; 100] ->
  exists i, dict_get letter_to_index (str_upper [c]) = Some i /\ (i < 4)%nat.
Proof.
  simpl. intros H.
  repeat (destruct H as [<-|H];
          [eexists; split; [vm_compute; reflexivity|lia]|]).
  contradiction.
Qed.

Lemma multiple_choice_result (block question_text : str) :
  well_formed_result (multiple_choice block question_text)
  /\ exists appended,
       multiple_choice block question_text = MultipleChoice appended.
Proof.
  unfold multiple_choice.
  destruct (collect_options_total block [65; 66; 67; 68] []) as [opts ->].
  destruct (re_search re_IGNORECASE correct_letter_pattern block)
    as [m|] eqn:E; [|simpl; eauto].
  destruct (Nat.eqb_spec (length opts) 4) as [L|L]; [|simpl; eauto].
  destruct (correct_letter_group _ _ E) as (c & -> & Hc).
  destruct (letter_index _ Hc) as (i & -> & Hi).
  destruct (nth_error opts i) as [answer|] eqn:En.
  - simpl. split; [|eauto]. split; [reflexivity|].
    exists opts. simpl. repeat split; auto. eapply nth_error_In; eassumption.
  - apply nth_error_None in En. lia.
Qed.

Lemma true_false_result (block question_text : str) :
  well_formed_result (true_false block question_text)
  /\ exists appended, true_false block question_text = TrueFalse appended.
Proof.
  unfold true_false.
  destruct (re_search re_IGNORECASE correct_tf_pattern block) as [m|] eqn:E;
    [|simpl; eauto].
  destruct (correct_tf_group _ _ E) as (w & -> & Hw). simpl. eauto.
Qed.

(** Every block ends in one of the four regular ways: the handler of the
    [try] is never entered. *)
Lemma parse_block_result (block : str) : well_formed_result (parse_block block).
Proof.
  unfold parse_block.
  destruct (isnil (str_strip block) || negb (str_contains (lit "Q:") block));
    [exact I|].
  destruct (re_search re_DOTALL question_pattern block) as [m|] eqn:E;
    [|exact I].
  apply re_search_group in E; [|reflexivity]. destruct E as [w ->].
  destruct (re_search no_flags option_letter_pattern block).
  - apply multiple_choice_result.
  - apply true_false_result.
Qed.

Lemma parse_block_never_caught (block : str) : parse_block block <> Caught.
Proof.
  intros H. pose proof (parse_block_result block) as W. now rewrite H in W.
Qed.

(** ** The records of a completion *)

(** What holds of every record [parse_quiz_response] returns, for every
    completion: a multiple-choice record has 4 options and its answer is one
    of them; a true/false record has no options and its answer is "True",
    "False", or "False" with a long s. *)
Lemma parse_quiz_response_records (quiz_text question_type : str)
    (q : QuizQuestion) :
  In q (parse_quiz_response quiz_text question_type) ->
  (type q = lit "mcq" /\ multiple_choice_invariant q)
  \/ (type q = lit "true_false" /\ options q = None
      /\ true_false_answer (correct_answer q)).
Proof.
  unfold parse_quiz_response. intros H. apply in_flat_map in H.
  destruct H as (block & _ & H). unfold block_records in H.
  pose proof (parse_block_result block) as W.
  destruct (parse_block block) as [| |[q'|]|[q'|]|]; simpl in H;
    try contradiction; destruct H as [<-|[]]; auto.
Qed.

(** The multiple-choice half of the record invariant holds of every record
    of every completion. *)
Lemma parse_quiz_response_multiple_choice (quiz_text question_type : str)
    (q : QuizQuestion) :
  In q (parse_quiz_response quiz_text question_type) ->
  type q = lit "mcq" -> multiple_choice_invariant q.
Proof.
  intros H Ht. apply parse_quiz_response_records in H.
  destruct H as [[_ H]|[Ht' _]]; [assumption|].
  rewrite Ht in Ht'. discriminate.
Qed.

(** C1, at the failing input.  IGNORECASE lets the pattern letter s match
    U+017F, and [capitalize] leaves that code point as it is: the completion
    "Q: x / Correct: Fal?e" with U+017F for the s parses to one true/false
    record whose [correct_answer] is neither "True" nor "False", so the
    record invariant fails for it. *)
Theorem long_s_answer_breaks_invariant (question_type : str) :
  parse_quiz_response long_s_completion question_type
  = [ {| question := lit "x"; options := None;
         correct_answer := long_s_false; type := lit "true_false" |} ]
  /\ long_s_false <> lit "True" /\ long_s_false <> lit "False"
  /\ ~ (forall q, In q (parse_quiz_response long_s_completion question_type) ->
                  record_invariant q).
Proof.
  assert (E : parse_quiz_response long_s_completion question_type
              = [ {| question := lit "x"; options := None;
                     correct_answer := long_s_false;
                     type := lit "true_false" |} ]) by reflexivity.
  split; [exact E|]. split; [discriminate|]. split; [discriminate|].
  intros H. rewrite E in H.
  destruct (H _ (or_introl eq_refl)) as [_ Htf].
  destruct (Htf eq_refl) as [_ [A|A]]; discriminate.
Qed.

(** C6 fails on the code.  [wrong_letter_block] is a multiple-choice block
    with its four options whose only [Correct:] line names E, a letter
    that is not one of A to D; the claim has it contribute no record.  The
    search for the correct letter is not tied to the [Correct:] line: it
    takes the first "correct:" of the block, in any case, that a letter A
    to D follows, here the words "correct: banana" of the question, and the
    block yields a record whose answer is option B. *)
Theorem wrong_letter_block_yields_a_record :
  treated_as_multiple_choice wrong_letter_block
  /\ correct_letter_not_A_to_D wrong_letter_block
  /\ parse_quiz_response wrong_letter_block (lit "mcq")
     = [ {| question := lit "Which is correct: banana or apple?";
            options := Some [lit "1"; lit "2"; lit "3"; lit "4"];
            correct_answer := lit "2";
            type := lit "mcq" |} ]
  /\ ~ (forall block,
         treated_as_multiple_choice block ->
         correct_letter_not_A_to_D block ->
         block_records block = []).
Proof.
  assert (Hmc : treated_as_multiple_choice wrong_letter_block)
    by (eexists; reflexivity).
  assert (Hun : correct_letter_not_A_to_D wrong_letter_block).
  { split; [reflexivity|]. intros line c Hline Hc Hin.
    vm_compute in Hline.
    repeat (destruct Hline as [<-|Hline]; [vm_compute in Hc; try discriminate|]);
      try contradiction.
    injection Hc as <-. simpl in Hin.
    repeat (destruct Hin as [Hin|Hin]; [discriminate|]). contradiction. }
  split; [exact Hmc|]. split; [exact Hun|]. split; [reflexivity|].
  intros H. specialize (H wrong_letter_block Hmc Hun). discriminate H.
Qed.

(** ** Multiple-choice or true/false *)

Lemma has_option_letter_newline (a b : str) :
  has_option_letter (a ++ newline :: b)
  = has_option_letter a || has_option_letter b.
Proof.
  induction a as [|x a IH].
  - simpl. destruct b; reflexivity.
  - destruct a as [|y a].
    + simpl. now rewrite andb_false_r.
    + change (has_option_letter ((x :: y :: a) ++ newline :: b))
        with ((between letter_A letter_D x && (y =? rparen))
              || has_option_letter ((y :: a) ++ newline :: b)).
      rewrite IH. simpl. now rewrite orb_assoc.
Qed.

Lemma lines_from_option_letter (s : str) : forall line,
  existsb has_option_letter (lines_from line s)
  = has_option_letter (rev line ++ s).
Proof.
  induction s as [|c s IH]; intros line; simpl.
  - now rewrite orb_false_r, app_nil_r.
  - destruct (N.eqb_spec c newline) as [->|Hc].
    + simpl. rewrite (IH []). simpl. now rewrite has_option_letter_newline.
    + rewrite IH. simpl. now rewrite <- app_assoc.
Qed.

(** Some line of the block holds an option letter exactly when the block
    does: a letter and the parenthesis after it are never parted by a
    newline. *)
Lemma has_option_letter_lines (block : str) :
  existsb has_option_letter (lines block) = has_option_letter block.
Proof. unfold lines. apply lines_from_option_letter. Qed.

Lemma has_option_letter_tl (line : str) :
  has_option_letter line
  = begins_with_option_letter line || has_option_letter (tl line).
Proof. destruct line as [|c [|d rest]]; reflexivity. Qed.

(** An option letter of the block begins a line or lies inside one. *)
Lemma has_option_letter_split (block : str) :
  has_option_letter block
  = has_option_line block || option_letter_inside block.
Proof.
  rewrite <- has_option_letter_lines.
  unfold has_option_line, option_letter_inside.
  induction (lines block) as [|line rest IH]; [reflexivity|].
  cbn [existsb]. rewrite IH, has_option_letter_tl.
  destruct (begins_with_option_letter line),
    (has_option_letter (tl line)),
    (existsb begins_with_option_letter rest); reflexivity.
Qed.

(** [re.search(r'[A-D]\)', block)] finds a match exactly when the block
    holds an option letter. *)
Lemma search_option_letter (s : str) :
  match re_search no_flags option_letter_pattern s with
  | Some _ => true
  | None => false
  end = has_option_letter s.
Proof.
  induction s as [|c s IH]; [reflexivity|].
  change (re_search no_flags option_letter_pattern (c :: s))
    with (match match_at no_flags option_letter_pattern (c :: s) with
          | Some m => Some m
          | None => re_search no_flags option_letter_pattern s
          end).
  unfold match_at, option_letter_pattern. simpl rmatch.
  destruct s as [|d s].
  - simpl. destruct (between letter_A letter_D c); reflexivity.
  - change (has_option_letter (c :: d :: s))
      with ((between letter_A letter_D c && (d =? rparen))
            || has_option_letter (d :: s)).
    rewrite <- IH.
    destruct (between letter_A letter_D c); [|reflexivity].
    destruct (d =? rparen); reflexivity.
Qed.

Lemma lstrip_keeps (c : codepoint) (s : str) :
  isspace c = false -> In c s -> In c (str_lstrip s).
Proof.
  intros Hc. induction s as [|d s IH]; simpl; [auto|].
  destruct (isspace d) eqn:Hd; [|auto].
  intros [->|H]; [congruence|auto].
Qed.

Lemma strip_keeps (c : codepoint) (s : str) :
  isspace c = false -> In c s -> In c (str_strip s).
Proof.
  intros Hc H. unfold str_strip, str_rstrip.
  apply (proj1 (in_rev _ _)). apply lstrip_keeps; [assumption|].
  apply (proj1 (in_rev _ _)). now apply lstrip_keeps.
Qed.

Lemma contains_marker_Q (s : str) :
  str_contains (lit "Q:") s = true -> In 81 s.
Proof.
  change (lit "Q:") with [81; 58].
  induction s as [|c s IH]; [discriminate|].
  change (str_contains [81; 58] (c :: s))
    with (startswith [81; 58] (c :: s) || str_contains [81; 58] s).
  intros H. apply orb_true_iff in H. destruct H as [H|H].
  - change (startswith [81; 58] (c :: s))
      with ((81 =? c) && startswith [58] s) in H.
    apply andb_true_iff in H. destruct H as [H _].
    apply N.eqb_eq in H. left. congruence.
  - right. auto.
Qed.

(** A block with a [Q:] marker passes the first guard of the loop. *)
Lemma marked_block_not_skipped (block : str) :
  str_contains (lit "Q:") block = true ->
  isnil (str_strip block) || negb (str_contains (lit "Q:") block) = false.
Proof.
  intros H. rewrite H. simpl. rewrite orb_false_r.
  apply contains_marker_Q in H. apply (strip_keeps 81) in H; [|reflexivity].
  now destruct (str_strip block).
Qed.

(** Once the question pattern has found a question, the block goes through
    one of the two branches, by its option letters. *)
Lemma classified_when_question_found (block : str) :
  str_contains (lit "Q:") block = true ->
  re_search re_DOTALL question_pattern block <> None ->
  (treated_as_multiple_choice block <-> has_option_letter block = true)
  /\ (has_option_letter block = false -> treated_as_true_false block).
Proof.
  intros Hq Hfound. rewrite <- search_option_letter.
  unfold treated_as_multiple_choice, treated_as_true_false, parse_block.
  rewrite (marked_block_not_skipped _ Hq).
  destruct (re_search re_DOTALL question_pattern block) as [m|] eqn:E;
    [|congruence].
  apply re_search_group in E; [|reflexivity]. destruct E as [w ->].
  destruct (re_search no_flags option_letter_pattern block).
  - destruct (multiple_choice_result block (str_strip w)) as [_ [a ->]].
    split; [split; eauto|discriminate].
  - destruct (true_false_result block (str_strip w)) as [_ [a ->]].
    split; [split; [intros [b Hb]|]; discriminate|eauto].
Qed.


(** *** When the question pattern finds a question *)

Section RepetitionTotal.
Context {R : Type}.
Variable p : codepoint -> bool.
Variable k : str -> option R.

Lemma lazy_star_total (s : str) :
  (forall c, p c = true) -> k [] <> None -> lazy_star p k s <> None.
Proof.
  intros Hp Hk. induction s as [|c s IH]; simpl.
  - destruct (k []); [discriminate|contradiction].
  - destruct (k (c :: s)); [discriminate|]. now rewrite Hp.
Qed.

Lemma lazy_plus_total (s : str) :
  (forall c, p c = true) -> k [] <> None -> s <> [] -> lazy_plus p k s <> None.
Proof.
  intros Hp Hk Hs. destruct s as [|c s]; [contradiction|]. simpl.
  rewrite Hp. now apply lazy_star_total.
Qed.

Lemma greedy_star_total (s : str) :
  (forall s1, s1 <> [] -> k s1 <> None) -> s <> [] ->
  greedy_star p k s <> None.
Proof.
  intros Hk. induction s as [|c s IH]; intros Hs; [contradiction|]. simpl.
  destruct (p c); [|apply Hk; discriminate].
  destruct (greedy_star p k s); [discriminate|]. apply Hk. discriminate.
Qed.
End RepetitionTotal.

Lemma re_search_from (fl : flags) (r : regex) (s : str) :
  match_at fl r s <> None ->
  forall before, re_search fl r (before ++ s) <> None.
Proof.
  intros H. assert (Hs : re_search fl r s <> None).
  { destruct s; simpl; destruct (match_at fl r _); congruence. }
  induction before as [|c before IH]; [exact Hs|]. simpl.
  destruct (match_at fl r (c :: before ++ s)); [discriminate|exact IH].
Qed.

(** At a [Q:] followed by at least one character the question pattern
    matches: the lazy group can always run to the end of the block, where
    [$] holds. *)
Lemma question_pattern_matches (c : codepoint) (rest : str) :
  match_at re_DOTALL question_pattern (lit "Q:" ++ c :: rest) <> None.
Proof.
  unfold match_at, question_pattern.
  change (lit "Q:" ++ c :: rest) with (81 :: 58 :: c :: rest).
  change (text "Q:") with (Cat (Atom (Chr 81)) (Atom (Chr 58))).
  cbn [rmatch atom_match IGNORECASE re_DOTALL].
  change (81 =? 81) with true. change (58 =? 58) with true. cbv iota.
  apply greedy_star_total; [|discriminate].
  intros s1 Hs1. apply lazy_plus_total; [reflexivity| |exact Hs1].
  discriminate.
Qed.

(** The question pattern finds a question exactly in the blocks that have a
    character after a [Q:] marker. *)
Lemma question_found_iff (block : str) :
  re_search re_DOTALL question_pattern block <> None
  <-> exists before c rest, block = before ++ lit "Q:" ++ c :: rest.
Proof.
  split.
  - destruct (re_search re_DOTALL question_pattern block) as [m|] eqn:E;
      [intros _|congruence].
    apply re_search_sound in E. destruct E as (before & w & -> & M).
    unfold question_pattern in M.
    inversion M as [ | |r1 r2 w1 w2 rest' g0 g1 g2 M1 M2| | | | | | | | | ];
      subst.
    apply (Matches_text_of re_DOTALL [81; 58]) in M1. destruct M1 as [_ F].
    invert_Forall2.
    repeat match goal with
           | H : atom_match re_DOTALL (Chr _) _ = true |- _ =>
               apply N.eqb_eq in H; subst
           end.
    inversion M2 as [ | |r1 r2 w3 w4 rest' g0 g3 g4 M3 M4| | | | | | | | | ];
      subst.
    inversion M4 as [ | |r1 r2 w5 w6 rest' g0 g5 g6 M5 M6| | | | | | | | | ];
      subst.
    inversion M5 as [ | | | | | | | |r w7 rest' g0 g7 M7| | | ]; subst.
    inversion M7 as [ | | | | | | |a w8 rest' g0 Hne Hall| | | | ]; subst.
    exists before.
    destruct (w3 ++ w5 ++ w6) as [|c tail] eqn:Ew.
    + destruct w3; [|discriminate]. destruct w5; [contradiction|discriminate].
    + exists c, (tail ++ m_end m). reflexivity.
  - intros (before & c & rest & ->).
    apply re_search_from, question_pattern_matches.
Qed.

(** C8, as amended.  For every block in which a [Q:] marker is followed by
    at least one character, and in which a letter A to D directly followed
    by a closing parenthesis occurs at the beginning of lines only, if at
    all, the block goes through the multiple-choice branch exactly when it
    contains a line matching the option-letter pattern, and through the
    true/false branch otherwise. *)
Theorem classified_by_option_letter (block before rest : str) (c : codepoint) :
  block = before ++ lit "Q:" ++ c :: rest ->
  option_letter_inside block = false ->
  (treated_as_multiple_choice block <-> has_option_line block = true)
  /\ (has_option_line block = false -> treated_as_true_false block).
Proof.
  intros E Hin.
  replace (has_option_line block) with (has_option_letter block)
    by (now rewrite has_option_letter_split, Hin, orb_false_r).
  apply classified_when_question_found.
  - rewrite E. clear E. induction before as [|d before IH]; [reflexivity|].
    change (str_contains (lit "Q:") ((d :: before) ++ lit "Q:" ++ c :: rest))
      with (startswith (lit "Q:") ((d :: before) ++ lit "Q:" ++ c :: rest)
            || str_contains (lit "Q:") (before ++ lit "Q:" ++ c :: rest)).
    rewrite IH. apply orb_true_r.
  - apply question_found_iff. eauto.
Qed.

(** C8, as stated, fails.  The block "Q:" has a [Q:] marker and no line
    matching the option-letter pattern, yet it does not go through the
    true/false branch: the question pattern needs a character after the
    marker, finds none, and the block is dropped before the test for
    option letters is reached. *)
Lemma bare_marker_is_not_classified :
  ~ (forall block,
       str_contains (lit "Q:") block = true ->
       (treated_as_multiple_choice block <-> has_option_line block = true)
       /\ (has_option_line block = false -> treated_as_true_false block)).
Proof.
  intros H. destruct (H (lit "Q:") eq_refl) as [_ Htf].
  destruct (Htf eq_refl) as [appended Ha]. vm_compute in Ha. discriminate.
Qed.

Lemma classified_by_option_letter_witness :
  (treated_as_multiple_choice sample_mcq_block
   <-> has_option_line sample_mcq_block = true)
  /\ (has_option_line sample_mcq_block = false
      -> treated_as_true_false sample_mcq_block).
Proof.
  apply (classified_by_option_letter sample_mcq_block []
           (lit "What is 2+2?
A) 3
B) 4
C) 5
D) 6
Correct: B") 32);
    reflexivity.
Defined.

(** Outside the blocks of C8 as amended: an option letter inside a line.
    The test of the code looks for the letter anywhere in the block, so a
    true/false block in the format of the prompt whose statement holds
    "(C)" has no line matching the option-letter pattern and still goes
    through the multiple-choice branch; it yields no record. *)
Example option_letter_inside_a_line :
  has_option_line vitamin_block = false
  /\ option_letter_inside vitamin_block = true
  /\ parse_block vitamin_block = MultipleChoice None
  /\ parse_quiz_response vitamin_block (lit "true_false") = [].
Proof. repeat split. Qed.

(** ** The scenarios of the specification *)

Example parse_sample_completion :
  parse_quiz_response sample_completion (lit "mixed")
  = [ {| question := lit "The sky is blue."; options := None;
         correct_answer := lit "True"; type := lit "true_false" |};
      {| question := lit "What is 2+2?";
         options := Some [lit "3"; lit "4"; lit "5"; lit "6"];
         correct_answer := lit "4"; type := lit "mcq" |} ].
Proof. reflexivity. Qed.

Example parse_invalid_letter :
  parse_quiz_response invalid_letter_block (lit "mcq") = []
  /\ parse_block invalid_letter_block = MultipleChoice None.
Proof. split; reflexivity. Qed.

Example parse_after_invalid_letter :
  parse_quiz_response invalid_letter_completion (lit "mixed")
  = [ {| question := lit "x"; options := None;
         correct_answer := lit "False"; type := lit "true_false" |} ].
Proof. reflexivity. Qed.

Example validate_sample :
  validate_quiz_questions
    (parse_quiz_response sample_completion (lit "mixed")) 2 = true
  /\ validate_quiz_questions
       (parse_quiz_response sample_completion (lit "mixed")) 3 = false.
Proof. split; reflexivity. Qed.

(** A question pattern that ends the block has nothing to capture, also
    behind other text. *)
Example parse_trailing_marker :
  parse_block (lit "Q:") = NoQuestion
  /\ parse_block (lit "Correct: True Q:") = NoQuestion.
Proof. split; reflexivity. Qed.

(** ** Completions without U+017F

    The long s is the only way past the true/false half of the record
    invariant: a completion that does not contain it parses to records that
    all satisfy the invariant. *)

Lemma lstrip_incl (s : str) : incl (str_lstrip s) s.
Proof.
  induction s as [|c s IH]; simpl; [apply incl_refl|].
  destruct (isspace c); [apply incl_tl, IH|apply incl_refl].
Qed.

Lemma strip_incl (s : str) : incl (str_strip s) s.
Proof.
  unfold str_strip, str_rstrip. intros c H.
  apply lstrip_incl. apply (proj2 (in_rev _ _)).
  apply (proj2 (in_rev _ _)) in H. now apply lstrip_incl in H.
Qed.

Lemma split_scan_incl (fl : flags) (r : regex) (s : str) :
  forall skip piece block,
    In block (split_scan fl r skip piece s) ->
    forall c, In c block -> In c piece \/ In c s.
Proof.
  induction s as [|c0 s IH]; intros skip piece block H c Hc.
  - simpl in H. destruct H as [<-|[]]. left. now apply in_rev.
  - cbn [split_scan] in H. destruct skip as [|n].
    + destruct (match_at fl r (c0 :: s)) as [m|].
      * destruct (length (c0 :: s) - length (m_end m))%nat as [|n].
        -- destruct (IH _ _ _ H c Hc) as [[<-|Hp]|Hs]; simpl; auto.
        -- destruct H as [<-|H].
           ++ left. now apply in_rev.
           ++ destruct (IH _ _ _ H c Hc) as [[]|Hs]. simpl. auto.
      * destruct (IH _ _ _ H c Hc) as [[<-|Hp]|Hs]; simpl; auto.
    + destruct (IH _ _ _ H c Hc) as [Hp|Hs]; simpl; auto.
Qed.

Lemma question_blocks_incl (quiz_text block : str) :
  In block (question_blocks quiz_text) -> incl block quiz_text.
Proof.
  unfold question_blocks, re_split. intros H c Hc.
  destruct (split_scan_incl _ _ _ _ _ _ H c Hc) as [[]|Hs].
  now apply strip_incl.
Qed.

(** The answer of a true/false record is the capitalized text of a piece of
    the block. *)
Lemma true_false_answer_source (block question_text : str) (q : QuizQuestion) :
  true_false block question_text = TrueFalse (Some q) ->
  exists w, correct_answer q = str_capitalize w /\ incl w block.
Proof.
  unfold true_false.
  destruct (re_search re_IGNORECASE correct_tf_pattern block) as [m|] eqn:E;
    [|discriminate].
  apply re_search_sound in E. destruct E as (before & w & -> & M).
  unfold correct_tf_pattern in M.
  inversion M as [ | |r1 r2 w1 w2 rest' g0 g1 g2 M1 M2| | | | | | | | | ];
    subst.
  inversion M2 as [ | |r1 r2 w3 w4 rest' g0 g3 g4 M3 M4| | | | | | | | | ];
    subst.
  inversion M4 as [ | | | | | | | |r w5 rest' g0 g5 M5| | | ]; subst.
  intros H. injection H as <-. exists w4. split; [reflexivity|].
  intros c Hc. apply in_or_app. right. apply in_or_app. left.
  apply in_or_app. right. apply in_or_app. now right.
Qed.

Lemma capitalize_long_s (w : str) : In 383 (str_capitalize w) -> In 383 w.
Proof.
  destruct w as [|c w]; simpl; [auto|]. intros [H|H].
  - left. unfold cp_upper, between in H. cp_cases.
  - right. apply in_map_iff in H. destruct H as (d & H & Hd).
    unfold cp_lower, between in H. replace d with 383 in Hd; [assumption|].
    cp_cases.
Qed.

Lemma parse_quiz_response_without_long_s (quiz_text question_type : str)
    (q : QuizQuestion) :
  ~ In 383 quiz_text ->
  In q (parse_quiz_response quiz_text question_type) ->
  record_invariant q.
Proof.
  intros Hno Hq.
  pose proof (parse_quiz_response_records _ _ _ Hq) as Hshape.
  destruct Hshape as [[Ht Hmc]|(Ht & Hopt & Hans)].
  - split; [auto|]. rewrite Ht. discriminate.
  - split; [rewrite Ht; discriminate|]. intros _.
    split; [assumption|].
    destruct Hans as [A|[A|A]]; [auto|auto|]. exfalso. apply Hno.
    unfold parse_quiz_response in Hq. apply in_flat_map in Hq.
    destruct Hq as (block & Hblock & Hq).
    apply (question_blocks_incl _ _ Hblock).
    unfold block_records in Hq.
    destruct (parse_block block) as [| |[q'|]|[q'|]|] eqn:E; simpl in Hq;
      try contradiction; destruct Hq as [->|[]].
    + pose proof (parse_block_result block) as W. rewrite E in W.
      destruct W as [Ht' _]. rewrite Ht in Ht'. discriminate.
    + unfold parse_block in E.
      destruct (isnil (str_strip block)
                || negb (str_contains (lit "Q:") block)); [discriminate|].
      destruct (re_search re_DOTALL question_pattern block) as [m|];
        [|discriminate].
      destruct (m_group m) as [g|]; [|discriminate].
      destruct (re_search no_flags option_letter_pattern block).
      * destruct (multiple_choice_result block (str_strip g)) as [_ [a Ha]].
        rewrite Ha in E. discriminate.
      * apply true_false_answer_source in E.
        destruct E as (w & Ew & Hw). apply Hw, capitalize_long_s.
        rewrite <- Ew, A. unfold long_s_false. simpl. auto.
Qed.

(** * Further properties *)

(** ** The retry loop, for every client *)

Lemma retry_budget client text num_questions question_type :
  forall attempts questions calls,
    (calls <=
     snd (retry client text num_questions question_type attempts questions calls)
     <= calls + attempts)%nat.
Proof.
  induction attempts as [|n IH]; intros questions calls.
  - simpl. destruct questions; simpl; lia.
  - simpl. unfold bind.
    destruct (client calls (quiz_prompt text num_questions question_type))
      as [f|completion] eqn:Hc.
    { rewrite (@generate_quiz_raises client text num_questions question_type
                 calls f Hc). simpl. lia. }
    rewrite (@generate_quiz_returns client text num_questions question_type
               calls completion Hc).
    destruct (validate_quiz_questions
                (parse_quiz_response completion question_type)
                (Z.max 1 (num_questions - 2))); simpl; [lia|].
    specialize (IH (Some (parse_quiz_response completion question_type))
                  (S calls)).
    lia.
Qed.

(** X1.  Whatever the model does (completions or failures), a call of
    [regenerate_if_needed] issues at most [max_attempts] model calls (none
    for a negative [max_attempts]). *)
Theorem regenerate_call_budget
    (client : model_client) (text : str) (num_questions : Z)
    (question_type : str) (max_attempts : Z) (calls : nat) :
  (calls <=
   snd (regenerate_if_needed client text num_questions question_type
          max_attempts calls)
   <= calls + Z.to_nat max_attempts)%nat.
Proof. apply retry_budget. Qed.

Lemma retry_returned client text num_questions question_type :
  forall attempts questions calls qs calls',
    retry client text num_questions question_type attempts questions calls
    = (Returned qs, calls') ->
    (attempts = 0%nat /\ questions = Some qs /\ calls' = calls)
    \/ exists completion,
         (calls < calls')%nat
         /\ client (calls' - 1)%nat
              (quiz_prompt text num_questions question_type)
            = inr completion
         /\ qs = parse_quiz_response completion question_type
         /\ (validate_quiz_questions qs (Z.max 1 (num_questions - 2)) = true
             \/ calls' = (calls + attempts)%nat).
Proof.
  induction attempts as [|n IH]; intros questions calls qs calls' H.
  - left. simpl in H. destruct questions as [q|]; [|discriminate].
    injection H as -> ->. auto.
  - right. simpl in H. unfold bind in H.
    destruct (client calls (quiz_prompt text num_questions question_type))
      as [f|completion] eqn:Hc.
    { rewrite (@generate_quiz_raises client text num_questions question_type
                 calls f Hc) in H. discriminate. }
    rewrite (@generate_quiz_returns client text num_questions question_type
               calls completion Hc) in H.
    destruct (validate_quiz_questions
                (parse_quiz_response completion question_type)
                (Z.max 1 (num_questions - 2))) eqn:Hv.
    + injection H as <- <-. exists completion.
      replace (S calls - 1)%nat with calls by lia. auto with arith.
    + apply IH in H.
      destruct H as [ (En & Hq & Ec) | (completion' & Hlt & Hc' & Eq & Hv') ];
        subst.
      * injection Hq as <-. exists completion.
        replace (S calls - 1)%nat with calls by lia.
        repeat split; auto with arith. right. lia.
      * exists completion'. repeat split; auto with arith.
        destruct Hv' as [Hv' | Hv']; [auto|right; lia].
Qed.

(** X2.  The records [regenerate_if_needed] returns are always the parse of
    the completion of the last model call it made, and they fail the
    relaxed validation only when all [max_attempts] calls were used. *)
Theorem returned_records_origin
    (client : model_client) (text : str) (num_questions : Z)
    (question_type : str) (max_attempts : Z) (calls calls' : nat)
    (qs : list QuizQuestion) :
  regenerate_if_needed client text num_questions question_type
    max_attempts calls
  = (Returned qs, calls') ->
  exists completion,
    (calls < calls')%nat
    /\ client (calls' - 1)%nat (quiz_prompt text num_questions question_type)
       = inr completion
    /\ qs = parse_quiz_response completion question_type
    /\ (validate_quiz_questions qs (Z.max 1 (num_questions - 2)) = true
        \/ calls' = (calls + Z.to_nat max_attempts)%nat).
Proof.
  unfold regenerate_if_needed. intros H. apply retry_returned in H.
  destruct H as [(_ & H & _)|H]; [discriminate|exact H].
Qed.

Lemma returned_records_origin_witness :
  exists completion,
    (0 < 2)%nat
    /\ junk_client (2 - 1)%nat (quiz_prompt notes 3 (lit "mixed"))
       = inr completion
    /\ parse_quiz_response junk_completion (lit "mixed")
       = parse_quiz_response completion (lit "mixed")
    /\ (validate_quiz_questions
          (parse_quiz_response junk_completion (lit "mixed"))
          (Z.max 1 (3 - 2)) = true
        \/ 2%nat = (0 + Z.to_nat 2)%nat).
Proof.
  apply (returned_records_origin junk_client notes 3%Z (lit "mixed") 2%Z
           0%nat 2%nat (parse_quiz_response junk_completion (lit "mixed"))).
  reflexivity.
Defined.

(** ** [generate_summary] *)

Section SummaryFacts.
Variable client : model_client.


(** The chunk loop when call [calls + j] is the first to fail. *)
Lemma summarize_chunks_fails (response : nat -> str) (f : failure)
    (chunks : list str) :
  forall j summaries calls,
    (j < length chunks)%nat ->
    (forall i, (i < j)%nat ->
       client (calls + i)%nat (chunk_prompt (nth i chunks []))
       = inr (response (calls + i)%nat)) ->
    client (calls + j)%nat (chunk_prompt (nth j chunks [])) = inl f ->
    summarize_chunks client chunks summaries calls
    = (Raised (ClientError f), S (calls + j)).
Proof.
  induction chunks as [|chunk rest IH]; intros j summaries calls Hj H Hf.
  - simpl in Hj. lia.
  - simpl. unfold bind, generate_content. destruct j as [|j].
    + simpl in Hf. rewrite Nat.add_0_r in *. rewrite Hf. reflexivity.
    + pose proof (H 0%nat (Nat.lt_0_succ _)) as H0. simpl in H0.
      rewrite Nat.add_0_r in H0. rewrite H0.
      rewrite (IH j).
      * f_equal. lia.
      * simpl in Hj. lia.
      * intros i Hi. replace (S calls + i)%nat with (calls + S i)%nat by lia.
        apply (H (S i)). lia.
      * replace (S calls + j)%nat with (calls + S j)%nat by lia. exact Hf.
Qed.


(** X4.  For a long text, the first chunk call that fails ends the
    function: the remaining chunks are not sent and no final call is made.
    When the class of the failure derives from [Exception], the exception
    raised is a plain [Exception] whose message is "Summary generation
    failed: " followed by the [str] of the failure; otherwise (a
    KeyboardInterrupt, a SystemExit) the handler does not catch it and the
    failure itself is raised. *)
Theorem long_summary_failure
    (text summary_type : str) (calls j : nat) (response : nat -> str)
    (f : failure) :
  (4000 < length text)%nat ->
  (j < length (chunk_text text 4000))%nat ->
  (forall i, (i < j)%nat ->
     client (calls + i)%nat (chunk_prompt (nth i (chunk_text text 4000) []))
     = inr (response (calls + i)%nat)) ->
  client (calls + j)%nat (chunk_prompt (nth j (chunk_text text 4000) []))
  = inl f ->
  generate_summary client text summary_type calls
  = (Raised (if failure_is_exception f
             then Exception (lit "Summary generation failed: "
                             ++ failure_str f)
             else ClientError f),
     S (calls + j)).
Proof.
  intros Hlen Hj Hok Hf. unfold generate_summary, try_except.
  destruct (Z.ltb_spec 4000 (Z.of_nat (length text))) as [_|Hle]; [|lia].
  unfold bind at 1.
  rewrite (summarize_chunks_fails response f _ j [] calls Hj Hok Hf).
  simpl. now destruct (failure_is_exception f).
Qed.

(** X5.  For a text of at most 4000 characters and a [summary_type] that is
    none of "concise", "detailed", "bullet_points", [generate_summary]
    makes exactly one model call, with the concise prompt; it returns the
    answer, or raises a plain [Exception] that carries the [str] of the
    failure when the class of the failure derives from [Exception], or
    lets the failure through unchanged when it does not. *)
Theorem short_summary_defaults_to_concise
    (text summary_type : str) (calls : nat) :
  (length text <= 4000)%nat ->
  summary_type <> lit "concise" ->
  summary_type <> lit "detailed" ->
  summary_type <> lit "bullet_points" ->
  generate_summary client text summary_type calls
  = match client calls (concise_prompt text) with
    | inr response => (Returned response, S calls)
    | inl f =>
        (Raised (if failure_is_exception f
                 then Exception (lit "Summary generation failed: "
                                 ++ failure_str f)
                 else ClientError f), S calls)
    end.
Proof.
  intros Hlen H1 H2 H3. unfold generate_summary, try_except.
  destruct (Z.ltb_spec 4000 (Z.of_nat (length text))) as [Hlt|_]; [lia|].
  unfold dict_get_default, summary_prompts, dict_get.
  assert (E1 : str_eqb (lit "concise") summary_type = false)
    by (apply str_eqb_neq; congruence).
  assert (E2 : str_eqb (lit "detailed") summary_type = false)
    by (apply str_eqb_neq; congruence).
  assert (E3 : str_eqb (lit "bullet_points") summary_type = false)
    by (apply str_eqb_neq; congruence).
  rewrite E1, E2, E3. unfold bind, generate_content.
  destruct (client calls (concise_prompt text)) as [f|response];
    [|reflexivity].
  simpl. now destruct (failure_is_exception f).
Qed.
End SummaryFacts.


Lemma long_summary_failure_witness :
  generate_summary second_call_fails long_notes (lit "detailed") 0%nat
  = (Raised (if failure_is_exception quota
             then Exception (lit "Summary generation failed: "
                             ++ failure_str quota)
             else ClientError quota),
     2%nat).
Proof.
  apply (long_summary_failure second_call_fails long_notes (lit "detailed")
           0%nat 1%nat (fun _ => lit "A summary.") quota);
    [ vm_compute; lia
    | vm_compute; lia
    | intros i Hi; destruct i as [|i]; [reflexivity|lia]
    | reflexivity ].
Defined.

Lemma short_summary_witness :
  generate_summary summary_client notes (lit "brief") 0%nat
  = match summary_client 0%nat (concise_prompt notes) with
    | inr response => (Returned response, 1%nat)
    | inl f =>
        (Raised (if failure_is_exception f
                 then Exception (lit "Summary generation failed: "
                                 ++ failure_str f)
                 else ClientError f), 1%nat)
    end.
Proof.
  apply (short_summary_defaults_to_concise summary_client notes (lit "brief")
           0%nat);
    [vm_compute; lia | discriminate | discriminate | discriminate].
Defined.

(** ** [chunk_text]: the chunks are groups of whole words *)

Lemma words_length_app (a b : list str) :
  words_length (a ++ b) = (words_length a + words_length b)%Z.
Proof. induction a as [|w a IH]; simpl; [reflexivity|]. rewrite IH. lia. Qed.

Lemma str_join_length (group : list str) :
  group <> [] ->
  (Z.of_nat (length (str_join space group)) + 1 = words_length group)%Z.
Proof.
  induction group as [|w group IH]; [congruence|]. intros _.
  destruct group as [|w' group].
  - simpl. lia.
  - rewrite str_join_cons by discriminate.
    change (words_length (w :: w' :: group))
      with (Z.of_nat (length w) + 1 + words_length (w' :: group))%Z.
    rewrite <- IH by discriminate. rewrite !length_app.
    change (length space) with 1%nat. lia.
Qed.

(** The invariant of the loop: the chunks appended so far are the joins of
    groups of words, and what is still to come is grouped likewise. *)
Lemma chunk_words_groups (max_length : Z) (words : list str) :
  forall groups current_chunk current_length,
    current_length = words_length current_chunk ->
    within_budget max_length current_chunk ->
    exists more,
      finish_chunks
        (chunk_words max_length words (map (str_join space) groups)
           current_chunk current_length)
      = map (str_join space) (groups ++ more)
      /\ concat more = current_chunk ++ words
      /\ Forall (within_budget max_length) more
      /\ (current_chunk <> [] -> Forall (fun g => g <> []) more)
      /\ Forall (fun g => g <> []) (tl more).
Proof.
  induction words as [|word rest IH]; intros groups cur len Hlen Hcur.
  - simpl. destruct cur as [|w cur].
    + exists []. simpl. rewrite app_nil_r. repeat split; auto.
    + exists [w :: cur]. simpl. rewrite map_app, app_nil_r.
      repeat split; auto;
        try (intros _); try (constructor; [discriminate|constructor]).
  - simpl chunk_words.
    destruct (Z.gtb_spec (len + (Z.of_nat (length word) + 1)) max_length)
      as [Hover|Hfit].
    + destruct (IH (groups ++ [cur]) [word] (Z.of_nat (length word) + 1)%Z)
        as (more & Hfin & Hcat & Hbud & Hne & Htl).
      * simpl. lia.
      * left. simpl. lia.
      * rewrite map_app in Hfin. simpl in Hfin.
        exists (cur :: more). rewrite Hfin, <- app_assoc. simpl.
        rewrite Hcat. repeat split; auto.
        -- intros Hc. constructor; [assumption|]. apply Hne. discriminate.
        -- apply Hne. discriminate.
    + destruct (IH groups (cur ++ [word])
                  (len + (Z.of_nat (length word) + 1))%Z)
        as (more & Hfin & Hcat & Hbud & Hne & Htl).
      * rewrite words_length_app. simpl. lia.
      * right. rewrite words_length_app. simpl. lia.
      * exists more. rewrite Hfin, Hcat, <- app_assoc. simpl.
        repeat split; auto. intros _. apply Hne. now destruct cur.
Qed.

Lemma chunk_text_groups (text : str) (max_length : Z) :
  exists groups,
    chunk_text text max_length = map (str_join space) groups
    /\ concat groups = str_split text
    /\ Forall (within_budget max_length) groups
    /\ Forall (fun g => g <> []) (tl groups).
Proof.
  destruct (chunk_words_groups max_length (str_split text) [] [] 0%Z)
    as (more & Hfin & Hcat & Hbud & _ & Htl);
    [reflexivity|left; simpl; lia|].
  exists more. repeat split; auto.
Qed.

(** X6.  [chunk_text] never splits, drops, repeats or reorders a word: its
    chunks are the joins, with single spaces, of consecutive groups of the
    words of the text. *)
Theorem chunk_text_keeps_words (text : str) (max_length : Z) :
  exists groups,
    chunk_text text max_length = map (str_join space) groups
    /\ concat groups = str_split text.
Proof.
  destruct (chunk_text_groups text max_length) as (groups & H1 & H2 & _).
  exists groups. auto.
Qed.

(** X7.  Every chunk of [chunk_text] is shorter than [max_length], unless it
    is a single word of the text or the empty chunk. *)
Theorem chunk_text_length_bound (text : str) (max_length : Z) (chunk : str) :
  In chunk (chunk_text text max_length) ->
  chunk = []
  \/ In chunk (str_split text)
  \/ (Z.of_nat (length chunk) < max_length)%Z.
Proof.
  destruct (chunk_text_groups text max_length)
    as (groups & Hchunks & Hcat & Hbud & _).
  rewrite Hchunks. intros H. apply in_map_iff in H.
  destruct H as (group & <- & Hin).
  rewrite Forall_forall in Hbud. specialize (Hbud _ Hin).
  destruct group as [|w [|w' group]].
  - now left.
  - right. left. simpl. rewrite <- Hcat. apply in_concat.
    exists [w]. split; [assumption|now left].
  - right. right. destruct Hbud as [Hb|Hb]; [simpl in Hb; lia|].
    rewrite <- str_join_length in Hb by discriminate. lia.
Qed.

Lemma chunk_text_length_bound_witness :
  lit "aa bb" = []
  \/ In (lit "aa bb") (str_split (lit "aa bb cc  dd e"))
  \/ (Z.of_nat (length (lit "aa bb")) < 6)%Z.
Proof.
  apply (chunk_text_length_bound (lit "aa bb cc  dd e") 6 (lit "aa bb")).
  vm_compute. auto.
Defined.

Lemma split_from_nonempty (s : str) : forall word,
  Forall (fun w => w <> []) (split_from word s).
Proof.
  induction s as [|c s IH]; intros word; simpl.
  - destruct word as [|d word]; constructor; [|constructor].
    intros E. apply (f_equal (@length codepoint)) in E.
    rewrite length_rev in E. discriminate.
  - destruct (isspace c); [|apply IH].
    destruct word as [|d word]; [apply IH|]. constructor; [|apply IH].
    intros E. apply (f_equal (@length codepoint)) in E.
    rewrite length_rev in E. discriminate.
Qed.

(** The words of [text.split()] are not empty. *)
Lemma str_split_nonempty (s : str) : Forall (fun w => w <> []) (str_split s).
Proof. apply split_from_nonempty. Qed.

Lemma str_join_nonempty (group : list str) :
  group <> [] -> Forall (fun w => w <> []) group ->
  str_join space group <> [].
Proof.
  destruct group as [|w group]; [congruence|]. intros _ H.
  apply Forall_inv in H. destruct w as [|c w]; [congruence|].
  destruct group; discriminate.
Qed.

(** When the first word fits, no group is empty. *)
Lemma chunk_text_groups_fit (text : str) (max_length : Z) :
  first_word_overflows text max_length = false ->
  exists groups,
    chunk_text text max_length = map (str_join space) groups
    /\ concat groups = str_split text
    /\ Forall (within_budget max_length) groups
    /\ Forall (fun g => g <> []) groups.
Proof.
  unfold first_word_overflows, chunk_text. intros Hfit.
  change (let (chunks, current_chunk) :=
            chunk_words max_length (str_split text) [] [] 0%Z in
          if isnil current_chunk then chunks
          else chunks ++ [str_join space current_chunk])
    with (finish_chunks (chunk_words max_length (str_split text) [] [] 0%Z)).
  destruct (str_split text) as [|word rest].
  - exists []. simpl. auto.
  - simpl chunk_words. rewrite ?Z.add_0_l. rewrite Hfit.
    destruct (chunk_words_groups max_length rest [] [word]
                (Z.of_nat (length word) + 1)%Z)
      as (more & Hfin & Hcat & Hbud & Hne & _);
      [simpl; lia|left; simpl; lia|].
    exists more. repeat split; auto. apply Hne. discriminate.
Qed.

(** When the first word overflows, the first chunk is the empty string. *)
Lemma chunk_text_overflow_head (text : str) (max_length : Z) :
  first_word_overflows text max_length = true ->
  exists rest, chunk_text text max_length = [] :: rest.
Proof.
  unfold first_word_overflows, chunk_text. intros Hover.
  change (let (chunks, current_chunk) :=
            chunk_words max_length (str_split text) [] [] 0%Z in
          if isnil current_chunk then chunks
          else chunks ++ [str_join space current_chunk])
    with (finish_chunks (chunk_words max_length (str_split text) [] [] 0%Z)).
  destruct (str_split text) as [|word rest]; [discriminate|].
  simpl chunk_words. rewrite ?Z.add_0_l. rewrite Hover.
  destruct (chunk_words_groups max_length rest [[]] [word]
              (Z.of_nat (length word) + 1)%Z)
    as (more & Hfin & _); [simpl; lia|left; simpl; lia|].
  simpl in Hfin. rewrite Hfin. eauto.
Qed.

(** X8.  When every word of the text fits the budget with its space
    ([len(word) + 1 <= max_length]), every chunk of [chunk_text] is
    non-empty and shorter than [max_length]. *)
Theorem chunk_text_fitting_words (text : str) (max_length : Z) :
  (forall word, In word (str_split text) ->
     (Z.of_nat (length word) + 1 <= max_length)%Z) ->
  forall chunk, In chunk (chunk_text text max_length) ->
    chunk <> [] /\ (Z.of_nat (length chunk) < max_length)%Z.
Proof.
  intros Hwords chunk Hin.
  assert (Hfit : first_word_overflows text max_length = false).
  { unfold first_word_overflows.
    destruct (str_split text) as [|word rest] eqn:E; [reflexivity|].
    specialize (Hwords word (or_introl eq_refl)).
    destruct (Z.gtb_spec (Z.of_nat (length word) + 1) max_length);
      [lia|reflexivity]. }
  destruct (chunk_text_groups_fit text max_length Hfit)
    as (groups & Hchunks & Hcat & Hbud & Hne).
  rewrite Hchunks in Hin. apply in_map_iff in Hin.
  destruct Hin as (group & <- & Hin).
  rewrite Forall_forall in Hbud, Hne.
  specialize (Hbud _ Hin). specialize (Hne _ Hin).
  assert (Hsub : forall w, In w group -> In w (str_split text)).
  { intros w Hw. rewrite <- Hcat. apply in_concat. eauto. }
  split.
  - apply str_join_nonempty; [assumption|].
    apply Forall_forall. intros w Hw.
    pose proof (str_split_nonempty text) as Hall.
    rewrite Forall_forall in Hall. auto.
  - destruct group as [|w [|w' group]]; [congruence| |].
    + simpl. specialize (Hwords w (Hsub w (or_introl eq_refl))). lia.
    + destruct Hbud as [Hb|Hb]; [simpl in Hb; lia|].
      rewrite <- str_join_length in Hb by discriminate. lia.
Qed.

Lemma chunk_text_fitting_words_witness :
  lit "cc dd" <> [] /\ (Z.of_nat (length (lit "cc dd")) < 6)%Z.
Proof.
  apply (chunk_text_fitting_words (lit "aa bb cc  dd e") 6).
  - intros word Hw. vm_compute in Hw.
    repeat (destruct Hw as [<-|Hw]; [vm_compute; discriminate|]).
    contradiction.
  - vm_compute. auto.
Defined.

(** X9.  [chunk_text] returns an empty chunk exactly when the first word of
    the text overflows the budget (the empty chunk then comes first), and
    returns no chunk at all exactly when the text has no word. *)
Theorem chunk_text_empty_chunks (text : str) (max_length : Z) :
  (In [] (chunk_text text max_length)
   <-> first_word_overflows text max_length = true)
  /\ (chunk_text text max_length = [] <-> str_split text = []).
Proof.
  split; split.
  - intros Hin.
    destruct (first_word_overflows text max_length) eqn:E; [reflexivity|].
    destruct (chunk_text_groups_fit text max_length E)
      as (groups & Hchunks & Hcat & _ & Hne).
    rewrite Hchunks in Hin. apply in_map_iff in Hin.
    destruct Hin as (group & Hjoin & Hin).
    rewrite Forall_forall in Hne. exfalso.
    apply (str_join_nonempty group); [auto| |assumption].
    apply Forall_forall. intros w Hw.
    pose proof (str_split_nonempty text) as Hall.
    rewrite Forall_forall in Hall. apply Hall.
    rewrite <- Hcat. apply in_concat. eauto.
  - intros Hover. destruct (chunk_text_overflow_head text max_length Hover)
      as [rest ->]. now left.
  - intros Hnil.
    destruct (chunk_text_groups text max_length)
      as (groups & Hchunks & Hcat & _).
    rewrite Hnil in Hchunks. destruct groups; [|discriminate].
    now rewrite <- Hcat.
  - intros Hnil. unfold chunk_text. now rewrite Hnil.
Qed.

(** ** The validator on parsed records *)

(** X10.  On the records [parse_quiz_response] returns, the option-count
    test of the validator never fires (a parsed multiple-choice record
    always has its 4 options): validation fails exactly when there are too
    few records or some record has an empty question or an empty answer. *)
Theorem parsed_records_validation
    (quiz_text question_type : str) (min_questions : Z) :
  validate_quiz_questions (parse_quiz_response quiz_text question_type)
    min_questions = false
  <-> (Z.of_nat (length (parse_quiz_response quiz_text question_type))
       < min_questions)%Z
      \/ exists q, In q (parse_quiz_response quiz_text question_type)
                   /\ (question q = [] \/ correct_answer q = []).
Proof.
  unfold validate_quiz_questions.
  destruct (Z.ltb_spec
              (Z.of_nat (length (parse_quiz_response quiz_text question_type)))
              min_questions) as [Hlt|Hge].
  - split; [auto|reflexivity].
  - rewrite validate_each_false. split.
    + intros (q & Hin & Hr). right. exists q. split; [assumption|].
      apply rejected_spec in Hr. destruct Hr as [Hr|[Ht Hc]]; [assumption|].
      exfalso. apply Hc.
      destruct (parse_quiz_response_multiple_choice _ _ _ Hin Ht)
        as (opts & Ho & Hl & _).
      unfold option_count. now rewrite Ho.
    + intros [Hlt|(q & Hin & Hr)]; [lia|].
      exists q. split; [assumption|]. apply rejected_spec. auto.
Qed.

(** ** White space: [strip] and [split] *)

Lemma lstrip_suffix (s : str) :
  exists spaces,
    s = spaces ++ str_lstrip s
    /\ Forall (fun c => isspace c = true) spaces
    /\ length spaces = leading_spaces s.
Proof.
  induction s as [|c s (spaces & E & F & L)]; simpl.
  - exists []. auto.
  - destruct (isspace c) eqn:Hc.
    + exists (c :: spaces). simpl. rewrite <- E, L. auto.
    + exists []. auto.
Qed.

Lemma lstrip_head (s : str) (c : codepoint) (rest : str) :
  str_lstrip s = c :: rest -> isspace c = false.
Proof.
  induction s as [|d s IH]; simpl; [discriminate|].
  destruct (isspace d) eqn:Hd; [exact IH|]. intros E. now injection E as <- _.
Qed.

Lemma lstrip_id (s : str) :
  (forall c rest, s = c :: rest -> isspace c = false) -> str_lstrip s = s.
Proof.
  destruct s as [|c s]; [reflexivity|]. intros H. simpl.
  now rewrite (H c s eq_refl).
Qed.

Lemma lstrip_nil (s : str) :
  str_lstrip s = [] <-> Forall (fun c => isspace c = true) s.
Proof.
  induction s as [|c s IH]; simpl; [split; auto|].
  destruct (isspace c) eqn:Hc.
  - rewrite IH. split; [auto|]. intros H. now inversion H.
  - split; [discriminate|]. intros H. inversion H. congruence.
Qed.

Lemma Forall_rev_iff {A : Type} (P : A -> Prop) (l : list A) :
  Forall P (rev l) <-> Forall P l.
Proof.
  rewrite !Forall_forall. split; intros H x Hx; apply H.
  - now apply (proj1 (in_rev _ _)).
  - now apply (proj2 (in_rev _ _)).
Qed.

Lemma strip_nil (s : str) :
  str_strip s = [] <-> Forall (fun c => isspace c = true) s.
Proof.
  unfold str_strip, str_rstrip. split.
  - intros H. apply (f_equal (@rev codepoint)) in H.
    rewrite rev_involutive in H. simpl in H.
    apply (proj1 (lstrip_nil _)) in H.
    apply (proj1 (Forall_rev_iff _ _)) in H.
    apply lstrip_nil. destruct (str_lstrip s) as [|c rest] eqn:E;
      [reflexivity|].
    apply lstrip_head in E. apply Forall_inv in H. congruence.
  - intros H. apply lstrip_nil in H. rewrite H. reflexivity.
Qed.

Lemma split_from_nil (s : str) : forall word,
  split_from word s = [] <-> word = [] /\ Forall (fun c => isspace c = true) s.
Proof.
  induction s as [|c s IH]; intros word; simpl.
  - destruct word; split; try discriminate; auto.
    intros [E _]. discriminate.
  - destruct (isspace c) eqn:Hc.
    + destruct word as [|d word].
      * rewrite IH. split; intros [E F]; split; auto. now inversion F.
      * split; [discriminate|]. intros [E _]. discriminate.
    + rewrite IH. split; [intros [E _]; discriminate|].
      intros [_ F]. inversion F. congruence.
Qed.

Lemma str_split_nil (s : str) :
  str_split s = [] <-> Forall (fun c => isspace c = true) s.
Proof.
  unfold str_split. rewrite split_from_nil. split; [now intros [_ H]|auto].
Qed.

(** X11.  [validate_text_content] accepts a text exactly when it has at
    least [max(min_words, 1)] words: the second test of the function only
    matters for [min_words <= 0], where it asks for one word. *)
Theorem validate_text_content_spec (text : str) (min_words : Z) :
  validate_text_content text min_words = true
  <-> (Z.max min_words 1 <= count_words text)%Z.
Proof.
  unfold validate_text_content, count_words.
  rewrite andb_true_iff, Z.leb_le, Z.ltb_lt.
  assert (H : (0 < Z.of_nat (length (str_strip text)))%Z
              <-> (1 <= Z.of_nat (length (str_split text)))%Z).
  { destruct (str_strip text) as [|c t] eqn:Es;
      destruct (str_split text) as [|w ws] eqn:Ew; simpl length; try lia.
    - apply strip_nil, str_split_nil in Es. congruence.
    - apply str_split_nil, strip_nil in Ew. congruence. }
  rewrite H. lia.
Qed.

(** ** [clean_text] *)

Lemma greedy_star_spaces {R : Type} (f : str -> R) (s : str) :
  greedy_star (atom_match no_flags Space) (fun s1 => Some (f s1)) s
  = Some (f (str_lstrip s)).
Proof.
  induction s as [|c s IH]; simpl; [reflexivity|].
  destruct (isspace c); [now rewrite IH|reflexivity].
Qed.

(** [\s+] matches at a white-space character, up to the end of the run. *)
Lemma match_whitespace_run (c : codepoint) (rest : str) :
  match_at no_flags whitespace_run (c :: rest)
  = if isspace c
    then Some {| m_end := str_lstrip rest; m_group := None |}
    else None.
Proof.
  unfold match_at, whitespace_run. simpl rmatch. unfold greedy_plus.
  change (atom_match no_flags Space c) with (isspace c).
  destruct (isspace c); [|reflexivity].
  apply (greedy_star_spaces (fun s1 => {| m_end := s1; m_group := None |})).
Qed.

Lemma sub_scan_skip (fl : flags) (r : regex) (repl passed s : str) :
  sub_scan fl r repl (length passed) (passed ++ s) = sub_scan fl r repl 0 s.
Proof. induction passed as [|c passed IH]; [reflexivity|exact IH]. Qed.

(** Replacing [\s+] by one space is [squeeze]. *)
Lemma sub_whitespace_run (s : str) :
  sub_scan no_flags whitespace_run space (leading_spaces s) s
  = squeeze true s
  /\ re_sub no_flags whitespace_run space s = squeeze false s.
Proof.
  unfold re_sub. induction s as [|c s [IH1 IH0]]; [split; reflexivity|].
  assert (E0 : sub_scan no_flags whitespace_run space 0 (c :: s)
               = squeeze false (c :: s)).
  { cbn [sub_scan]. rewrite match_whitespace_run. cbn [squeeze].
    destruct (isspace c); [|now rewrite IH0].
    cbn [m_end]. destruct (lstrip_suffix s) as (spaces & E & _ & L).
    replace (length (c :: s) - length (str_lstrip s))%nat
      with (S (leading_spaces s)).
    - now rewrite IH1.
    - apply (f_equal (@length codepoint)) in E. rewrite length_app in E.
      simpl length. lia. }
  split; [|exact E0].
  cbn [leading_spaces squeeze]. destruct (isspace c) eqn:Hc.
  - cbn [sub_scan]. exact IH1.
  - rewrite E0. cbn [squeeze]. now rewrite Hc.
Qed.

Lemma squeeze_in (s : str) : forall in_run c,
  In c (squeeze in_run s) -> c = 32 \/ (In c s /\ isspace c = false).
Proof.
  induction s as [|d s IH]; intros in_run c; simpl; [contradiction|].
  destruct (isspace d) eqn:Hd.
  - destruct in_run; simpl.
    + intros H. destruct (IH _ _ H) as [E|[Hin Hc]]; auto.
    + intros [E|H]; [auto|]. destruct (IH _ _ H) as [E|[Hin Hc]]; auto.
  - simpl. intros [<-|H]; [auto|].
    destruct (IH _ _ H) as [E|[Hin Hc]]; auto.
Qed.

Lemma squeeze_keeps (s : str) : forall in_run c,
  In c s -> isspace c = false -> In c (squeeze in_run s).
Proof.
  induction s as [|d s IH]; intros in_run c; simpl; [contradiction|].
  intros [->|H] Hc.
  - rewrite Hc. now left.
  - destruct (isspace d); [destruct in_run|]; simpl; auto.
Qed.

Lemma match_blank_lines_none (c : codepoint) (s : str) :
  c <> newline -> match_at no_flags blank_lines (c :: s) = None.
Proof.
  intros Hc. unfold match_at, blank_lines. cbn [rmatch atom_match].
  simpl IGNORECASE. cbv iota. now destruct (N.eqb_spec c newline).
Qed.

(** A text without newline has no match of [\n\s*\n]. *)
Lemma sub_blank_lines_id (repl s : str) :
  ~ In newline s -> re_sub no_flags blank_lines repl s = s.
Proof.
  unfold re_sub. induction s as [|c s IH]; [reflexivity|]. intros H.
  cbn [sub_scan]. rewrite match_blank_lines_none.
  - rewrite IH; [reflexivity|]. intros Hin. apply H. now right.
  - intros ->. apply H. now left.
Qed.

(** The class matches one character, when it is in one of its ranges. *)
Lemma match_control_characters (c : codepoint) (s : str) :
  match_at no_flags control_characters (c :: s)
  = if is_control c then Some {| m_end := s; m_group := None |} else None.
Proof.
  unfold match_at, control_characters, is_control.
  cbn [rmatch atom_match]. simpl IGNORECASE. cbv iota.
  destruct (between 0 8 c); [reflexivity|].
  destruct (between 11 12 c); [reflexivity|].
  destruct (between 14 31 c); [reflexivity|].
  destruct (between 127 159 c); reflexivity.
Qed.

(** Deleting the matches of the class is a filter. *)
Lemma sub_control_characters (s : str) :
  re_sub no_flags control_characters [] s
  = filter (fun c => negb (is_control c)) s.
Proof.
  unfold re_sub. induction s as [|c s IH]; [reflexivity|].
  cbn [sub_scan filter]. rewrite match_control_characters.
  destruct (is_control c); cbn [negb m_end].
  - replace (length (c :: s) - length s)%nat with 1%nat
      by (simpl length; lia).
    exact IH.
  - now rewrite IH.
Qed.

(** The second substitution of [clean_text] never finds a match: the first
    has already turned every newline into a space. *)
Lemma clean_text_eq (text : str) :
  clean_text text
  = str_strip (filter (fun c => negb (is_control c)) (squeeze false text)).
Proof.
  unfold clean_text.
  rewrite (proj2 (sub_whitespace_run text)).
  rewrite sub_blank_lines_id, sub_control_characters; [reflexivity|].
  intros H. apply squeeze_in in H. destruct H as [H|[_ H]]; discriminate.
Qed.

Lemma strip_trimmed (s : str) : trimmed (str_strip s).
Proof.
  unfold str_strip, str_rstrip. split.
  - intros c rest E. apply (f_equal (@rev codepoint)) in E.
    rewrite rev_involutive in E. simpl in E.
    destruct (lstrip_suffix (rev (str_lstrip s))) as (spaces & Es & _).
    rewrite E in Es. apply (f_equal (@rev codepoint)) in Es.
    rewrite rev_involutive, rev_app_distr, rev_app_distr in Es.
    simpl in Es. eapply lstrip_head. exact Es.
  - intros c front E. apply (f_equal (@rev codepoint)) in E.
    rewrite rev_involutive, rev_app_distr in E. simpl in E.
    eapply lstrip_head. exact E.
Qed.

Lemma trimmed_strip (s : str) : trimmed s -> str_strip s = s.
Proof.
  intros [Hhead Hlast]. unfold str_strip, str_rstrip.
  rewrite (lstrip_id s Hhead). rewrite lstrip_id; [apply rev_involutive|].
  intros c rest E. apply (f_equal (@rev codepoint)) in E.
  rewrite rev_involutive in E. simpl in E. eapply Hlast. exact E.
Qed.

Lemma filter_all {A : Type} (f : A -> bool) (l : list A) :
  (forall x, In x l -> f x = true) -> filter f l = l.
Proof.
  induction l as [|x l IH]; simpl; [reflexivity|]. intros H.
  rewrite (H x (or_introl eq_refl)), IH; auto.
Qed.

(** X12.  The text [clean_text] returns holds no character of the control
    class and no white space other than U+0020 (so no newline and no tab),
    and it neither begins nor ends with white space. *)
Theorem clean_text_output (text : str) :
  Forall (fun c => is_control c = false /\ (isspace c = true -> c = 32))
    (clean_text text)
  /\ trimmed (clean_text text).
Proof.
  rewrite clean_text_eq. split; [|apply strip_trimmed].
  apply Forall_forall. intros c Hc. apply strip_incl in Hc.
  apply filter_In in Hc. destruct Hc as [Hin Hctl].
  apply negb_true_iff in Hctl. split; [assumption|].
  apply squeeze_in in Hin. destruct Hin as [->|[_ Hs]]; [auto|congruence].
Qed.

Lemma ends_with_space_cons (c : codepoint) (rest : str) :
  ends_with_space (c :: rest)
  = if isnil rest then isspace c else ends_with_space rest.
Proof. destruct rest; reflexivity. Qed.

Lemma ends_with_space_all (s : str) :
  s <> [] -> Forall (fun c => isspace c = true) s -> ends_with_space s = true.
Proof.
  induction s as [|c s IH]; [congruence|]. intros _ H.
  inversion H as [|? ? Hc Hs]; subst. rewrite ends_with_space_cons.
  destruct s as [|d s]; [exact Hc|]. simpl isnil. cbv iota.
  apply IH; [discriminate|assumption].
Qed.

(** [squeeze] writes the words of [split] with single spaces between them,
    and one more space at the end when the text ends in white space. *)
Lemma squeeze_split (s : str) : forall word,
  rev word ++ squeeze (isnil word) s
  = str_join space (split_from word s)
    ++ (if ends_with_space s && negb (isnil (split_from word s))
        then [32] else []).
Proof.
  induction s as [|c s IH]; intros word.
  - simpl. destruct word; simpl; now rewrite ?app_nil_r.
  - rewrite ends_with_space_cons. cbn [squeeze split_from].
    destruct (isspace c) eqn:Hc.
    + destruct word as [|d word].
      * simpl isnil. cbv iota. simpl rev. simpl app at 1.
        specialize (IH []). simpl in IH. rewrite IH.
        destruct s; reflexivity.
      * simpl isnil. cbv iota. specialize (IH []). simpl rev in IH.
        simpl app in IH. simpl isnil in IH. rewrite IH.
        destruct (split_from [] s) as [|w ws] eqn:Ew.
        -- apply split_from_nil in Ew. destruct Ew as [_ Hall].
           simpl. rewrite andb_false_r, andb_true_r.
           destruct s as [|e s]; [reflexivity|].
           simpl isnil. cbv iota.
           rewrite (ends_with_space_all (e :: s)); [reflexivity| |exact Hall].
           discriminate.
        -- rewrite (@str_join_cons space _ (w :: ws)) by discriminate.
           simpl isnil. simpl negb. rewrite !andb_true_r.
           destruct s as [|e s]; [discriminate|].
           simpl isnil. cbv iota. now rewrite <- !app_assoc.
    + replace (rev word ++ c :: squeeze false s)
        with (rev (c :: word) ++ squeeze (isnil (c :: word)) s)
        by (simpl; now rewrite <- app_assoc).
      rewrite IH. destruct s as [|e s]; reflexivity.
Qed.

Lemma squeeze_true_head (s : str) (d : codepoint) (rest : str) :
  squeeze true s = d :: rest -> isspace d = false.
Proof.
  induction s as [|c s IH]; simpl; [discriminate|].
  destruct (isspace c) eqn:Hc; [exact IH|]. intros E. now injection E as <- _.
Qed.

Lemma lstrip_squeeze (s : str) :
  str_lstrip (squeeze false s) = squeeze true s.
Proof.
  destruct s as [|c s]; [reflexivity|]. cbn [squeeze].
  destruct (isspace c) eqn:Hc.
  - cbn [str_lstrip]. change (isspace 32) with true. cbv iota.
    apply lstrip_id. intros d rest E. eapply squeeze_true_head. exact E.
  - cbn [str_lstrip]. now rewrite Hc.
Qed.

Lemma split_from_words (s : str) : forall word,
  Forall (fun c => isspace c = false) word ->
  Forall (fun w => w <> [] /\ Forall (fun c => isspace c = false) w)
    (split_from word s).
Proof.
  assert (Hrev : forall d word,
            Forall (fun c => isspace c = false) (d :: word) ->
            rev (d :: word) <> []
            /\ Forall (fun c => isspace c = false) (rev (d :: word))).
  { intros d word H. split; [|now apply Forall_rev_iff].
    intros E. apply (f_equal (@length codepoint)) in E.
    rewrite length_rev in E. discriminate. }
  induction s as [|c s IH]; intros word Hword; simpl.
  - destruct word as [|d word]; constructor; auto.
  - destruct (isspace c) eqn:Hc.
    + destruct word as [|d word]; [apply IH; constructor|].
      constructor; [auto|apply IH; constructor].
    + apply IH. constructor; assumption.
Qed.

(** The words joined end in a character that is not white space. *)
Lemma str_join_rev_head (words : list str) :
  words <> [] ->
  Forall (fun w => w <> [] /\ Forall (fun c => isspace c = false) w) words ->
  exists d rest,
    rev (str_join space words) = d :: rest /\ isspace d = false.
Proof.
  induction words as [|w words IH]; [congruence|]. intros _ H.
  inversion H as [|? ? [Hne Hw] Hrest]; subst.
  destruct words as [|w' words].
  - simpl. destruct (rev w) as [|d rest] eqn:E.
    + apply (f_equal (@length codepoint)) in E. rewrite length_rev in E.
      destruct w; [congruence|discriminate].
    + exists d, rest. split; [reflexivity|].
      apply Forall_rev_iff in Hw. rewrite E in Hw. now inversion Hw.
  - rewrite str_join_cons by discriminate.
    destruct IH as (d & rest & E & Hd); [discriminate|assumption|].
    rewrite !rev_app_distr, E. simpl. eauto.
Qed.

(** Squeezing and stripping is splitting and joining. *)
Lemma strip_squeeze (s : str) :
  str_strip (squeeze false s) = str_join space (str_split s).
Proof.
  unfold str_strip, str_rstrip. rewrite lstrip_squeeze.
  pose proof (squeeze_split s []) as E. simpl in E. rewrite E.
  fold (str_split s).
  pose proof (split_from_words s [] (Forall_nil _)) as Hw.
  fold (str_split s) in Hw.
  destruct (str_split s) as [|w ws] eqn:Es.
  - simpl. now rewrite andb_false_r.
  - destruct (str_join_rev_head (w :: ws)) as (d & rest & Er & Hd);
      [discriminate|assumption|].
    assert (Hstrip : str_lstrip (rev (str_join space (w :: ws)))
                     = rev (str_join space (w :: ws))).
    { rewrite Er. simpl. now rewrite Hd. }
    destruct (ends_with_space s && negb (isnil (w :: ws))).
    + replace (rev (str_join space (w :: ws) ++ [32]))
        with (32 :: rev (str_join space (w :: ws)))
        by (now rewrite rev_app_distr).
      cbn [str_lstrip]. change (isspace 32) with true. cbv iota.
      rewrite Hstrip. apply rev_involutive.
    + rewrite app_nil_r, Hstrip. apply rev_involutive.
Qed.

(** X13.  On a text whose control characters, if any, are white space,
    [clean_text] is [' '.join(text.split())]: the words of the text with
    single spaces between them. *)
Theorem clean_text_collapses (text : str) :
  (forall c, In c text -> is_control c = true -> isspace c = true) ->
  clean_text text = str_join space (str_split text).
Proof.
  intros H. rewrite clean_text_eq, filter_all; [apply strip_squeeze|].
  intros c Hc. apply negb_true_iff. apply squeeze_in in Hc.
  destruct Hc as [->|[Hin Hs]]; [reflexivity|].
  destruct (is_control c) eqn:Hctl; [|reflexivity].
  rewrite (H c Hin Hctl) in Hs. discriminate.
Qed.

Lemma clean_text_collapses_witness :
  clean_text (lit "  two   words
and more ")
  = str_join space (str_split (lit "  two   words
and more ")).
Proof.
  apply clean_text_collapses. intros c Hc Hctl. vm_compute in Hc.
  repeat (destruct Hc as [<-|Hc]; [try reflexivity; discriminate Hctl|]).
  contradiction.
Defined.

(** X14.  [clean_text] returns the empty string exactly for the texts made
    of white space and control characters only. *)
Theorem clean_text_empty (text : str) :
  clean_text text = []
  <-> Forall (fun c => isspace c = true \/ is_control c = true) text.
Proof.
  rewrite clean_text_eq, strip_nil, !Forall_forall. split.
  - intros H c Hc. destruct (isspace c) eqn:Hs; [now left|]. right.
    destruct (is_control c) eqn:Hctl; [reflexivity|].
    rewrite <- Hs. apply H. apply filter_In. split.
    + now apply squeeze_keeps.
    + now rewrite Hctl.
  - intros H c Hc. apply filter_In in Hc. destruct Hc as [Hin Hctl].
    apply negb_true_iff in Hctl. apply squeeze_in in Hin.
    destruct Hin as [->|[Hin Hs]]; [reflexivity|].
    destruct (H c Hin); congruence.
Qed.

(** ** [chunk_text_for_processing] *)

(** X15.  With [overlap >= chunk_size] the function yields no chunk,
    whatever the text: it raises (the ValueError of [range] on a zero step)
    when the two are equal, and returns the empty list when the overlap is
    larger. *)
Theorem overlap_not_below_chunk_size (text : str) (chunk_size overlap : Z) :
  (chunk_size <= overlap)%Z ->
  chunk_text_for_processing text chunk_size overlap
  = if (chunk_size =? overlap)%Z then None else Some [].
Proof.
  intros H. unfold chunk_text_for_processing, py_range, range_length.
  destruct (Z.eqb_spec chunk_size overlap) as [->|Hne].
  - now rewrite Z.sub_diag.
  - destruct (Z.eqb_spec (chunk_size - overlap) 0) as [E|_]; [lia|].
    destruct (Z.ltb_spec 0 (chunk_size - overlap)) as [Hpos|_]; [lia|].
    destruct (Z.ltb_spec (Z.of_nat (length (str_split text))) 0);
      [lia|reflexivity].
Qed.

Lemma overlap_not_below_chunk_size_witness :
  chunk_text_for_processing (lit "a b c") 2 5
  = if (2 =? 5)%Z then None else Some [].
Proof. apply overlap_not_below_chunk_size. lia. Defined.

Lemma py_slice_window {A : Type} (l : list A) (i k : nat) :
  (i <= length l)%nat ->
  py_slice l (Z.of_nat i) (Z.of_nat i + Z.of_nat k) = firstn k (skipn i l).
Proof.
  intros Hi. unfold py_slice, slice_index.
  destruct (Z.ltb_spec (Z.of_nat i) 0) as [|_]; [lia|].
  destruct (Z.ltb_spec (Z.of_nat i + Z.of_nat k) 0) as [|_]; [lia|].
  cbv zeta.
  rewrite (Z.min_l (Z.of_nat i)) by lia. rewrite Nat2Z.id.
  destruct (Nat.le_gt_cases (i + k) (length l)) as [Hk|Hk].
  - rewrite (Z.min_l (Z.of_nat i + Z.of_nat k)) by lia. f_equal. lia.
  - rewrite (Z.min_r (Z.of_nat i + Z.of_nat k)) by lia.
    replace (Z.to_nat (Z.of_nat (length l) - Z.of_nat i))
      with (length (skipn i l)) by (rewrite length_skipn; lia).
    rewrite firstn_all. symmetry. apply firstn_all2.
    rewrite length_skipn. lia.
Qed.

(** Cutting a list every [step] elements and putting the pieces together
    gives the list back. *)
Lemma concat_windows {A : Type} (step : nat) : forall count (l : list A),
  (length l <= count * step)%nat ->
  concat (map (fun k => firstn step (skipn (k * step) l)) (seq 0 count)) = l.
Proof.
  induction count as [|count IH]; intros l Hl.
  - destruct l; [reflexivity|simpl in Hl; lia].
  - cbn [seq map concat]. rewrite <- seq_shift, map_map.
    rewrite (map_ext _ (fun k => firstn step (skipn (k * step) (skipn step l)))).
    + rewrite IH by (rewrite length_skipn; lia).
      simpl skipn. apply firstn_skipn.
    + intros k. rewrite skipn_skipn. f_equal. f_equal. lia.
Qed.

(** X16.  With [0 <= overlap < chunk_size] the function returns
    [ceil(n / step)] chunks for a text of [n > 0] words, [step] being
    [chunk_size - overlap] (none for a text without words).  Chunk number
    [k] (from 0) is the join of the window of [chunk_size] consecutive
    words that starts at word [k * step], cut short at the end of the
    text: a chunk starts [step] words after the one before it, so that two
    chunks in a row share [overlap] words where the text is long enough.
    Each window holds at least one word, and the first [step] words of the
    windows, put together, are exactly the words of the text: no word is
    lost. *)
Theorem overlapping_chunks_cover (text : str) (chunk_size overlap : Z) :
  (0 <= overlap < chunk_size)%Z ->
  exists groups,
    chunk_text_for_processing text chunk_size overlap
    = Some (map (str_join space) groups)
    /\ groups
       = map (fun k =>
                firstn (Z.to_nat chunk_size)
                  (skipn (k * Z.to_nat (chunk_size - overlap))
                     (str_split text)))
           (seq 0 (length groups))
    /\ concat (map (firstn (Z.to_nat (chunk_size - overlap))) groups)
       = str_split text
    /\ Forall (fun g => g <> [] /\ (Z.of_nat (length g) <= chunk_size)%Z)
         groups
    /\ Z.of_nat (length groups)
       = ((Z.of_nat (length (str_split text)) + (chunk_size - overlap) - 1)
          / (chunk_size - overlap))%Z.
Proof.
  intros H. unfold chunk_text_for_processing, py_range.
  set (words := str_split text). set (step := (chunk_size - overlap)%Z).
  set (n := length words).
  destruct (Z.eqb_spec step 0) as [E|_]; [unfold step in E; lia|].
  set (count := range_length 0 (Z.of_nat n) step).
  set (stepn := Z.to_nat step). set (size := Z.to_nat chunk_size).
  assert (Hstep : (0 < stepn <= size)%nat) by (unfold stepn, size, step; lia).
  assert (Hcount : (n <= count * stepn)%nat
                   /\ (forall k, (k < count)%nat -> (k * stepn < n)%nat)
                   /\ Z.of_nat count = ((Z.of_nat n + step - 1) / step)%Z).
  { unfold count, range_length.
    destruct (Z.ltb_spec 0 step) as [Hpos|]; [|unfold step in *; lia].
    destruct (Z.ltb_spec 0 (Z.of_nat n)) as [Hn|Hn].
    - assert (Hq : (0 <= (Z.of_nat n - 0 - 1) / step)%Z)
        by (apply Z.div_pos; lia).
      pose proof (Z.mul_div_le (Z.of_nat n - 0 - 1) step Hpos) as Hlo.
      pose proof (Z.mul_succ_div_gt (Z.of_nat n - 0 - 1) step Hpos) as Hhi.
      assert (Estep : Z.of_nat stepn = step) by (unfold stepn; lia).
      assert (Ediv : ((Z.of_nat n + step - 1) / step
                      = (Z.of_nat n - 0 - 1) / step + 1)%Z).
      { replace (Z.of_nat n + step - 1)%Z
          with ((Z.of_nat n - 0 - 1) + 1 * step)%Z by lia.
        apply Z.div_add; lia. }
      repeat split.
      + nia.
      + intros k Hk. nia.
      + rewrite Ediv. lia.
    - assert (n = 0%nat) by lia. repeat split; try lia.
      replace (Z.of_nat n + step - 1)%Z with (step - 1)%Z by lia.
      rewrite Z.div_small; lia. }
  destruct Hcount as (Hcover & Hstart & Hceil).
  exists (map (fun k => firstn size (skipn (k * stepn) words)) (seq 0 count)).
  repeat split.
  - f_equal. rewrite !map_map. apply map_ext_in. intros k Hk.
    apply in_seq in Hk. f_equal.
    replace (0 + Z.of_nat k * step)%Z with (Z.of_nat (k * stepn))
      by (unfold stepn; lia).
    replace chunk_size with (Z.of_nat size) by (unfold size; lia).
    apply py_slice_window. specialize (Hstart k). fold n. lia.
  - now rewrite length_map, length_seq.
  - rewrite map_map. fold stepn.
    rewrite (map_ext _ (fun k => firstn stepn (skipn (k * stepn) words))).
    + apply concat_windows. exact Hcover.
    + intros k. rewrite firstn_firstn. f_equal. lia.
  - apply Forall_forall. intros g Hg. apply in_map_iff in Hg.
    destruct Hg as (k & <- & Hk). apply in_seq in Hk. split.
    + intros E. apply (f_equal (@length str)) in E.
      rewrite length_firstn, length_skipn in E. simpl in E.
      specialize (Hstart k). fold n in E. lia.
    + rewrite length_firstn. unfold size. lia.
  - rewrite length_map, length_seq. exact Hceil.
Qed.

Lemma overlapping_chunks_cover_witness :
  exists groups,
    chunk_text_for_processing (lit "a b c d e") 3 1
    = Some (map (str_join space) groups)
    /\ groups
       = map (fun k =>
                firstn (Z.to_nat 3)
                  (skipn (k * Z.to_nat (3 - 1))
                     (str_split (lit "a b c d e"))))
           (seq 0 (length groups))
    /\ concat (map (firstn (Z.to_nat (3 - 1))) groups)
       = str_split (lit "a b c d e")
    /\ Forall (fun g => g <> [] /\ (Z.of_nat (length g) <= 3)%Z) groups
    /\ Z.of_nat (length groups)
       = ((Z.of_nat (length (str_split (lit "a b c d e"))) + (3 - 1) - 1)
          / (3 - 1))%Z.
Proof. apply (overlapping_chunks_cover (lit "a b c d e") 3 1). lia. Defined.

Example overlapping_chunks_example :
  chunk_text_for_processing (lit "a b c d e") 3 1
  = Some [lit "a b c"; lit "c d e"; lit "e"].
Proof. reflexivity. Qed.

(** ** What the parser leaves out and what it trims *)

Lemma startswith_app (sub s after : str) :
  startswith sub s = true -> startswith sub (s ++ after) = true.
Proof.
  revert s. induction sub as [|p sub IH]; intros [|c s] H; simpl in *;
    try reflexivity; try discriminate.
  apply andb_true_iff in H. destruct H as [-> H]. simpl. auto.
Qed.

Lemma str_contains_here (sub s : str) :
  startswith sub s = true -> str_contains sub s = true.
Proof. intros H. destruct s; simpl; rewrite H; reflexivity. Qed.

Lemma str_contains_app_r (sub s after : str) :
  str_contains sub s = true -> str_contains sub (s ++ after) = true.
Proof.
  induction s as [|c s IH]; intros H.
  - simpl in H. rewrite orb_false_r in H.
    apply str_contains_here. now apply (startswith_app sub [] after).
  - change (str_contains sub (c :: s))
      with (startswith sub (c :: s) || str_contains sub s) in H.
    change (str_contains sub ((c :: s) ++ after))
      with (startswith sub ((c :: s) ++ after)
            || str_contains sub (s ++ after)).
    apply orb_true_iff in H. destruct H as [H|H].
    + now rewrite (startswith_app _ _ after H).
    + rewrite (IH H). apply orb_true_r.
Qed.

Lemma str_contains_app_l (sub before s : str) :
  str_contains sub s = true -> str_contains sub (before ++ s) = true.
Proof.
  intros H. induction before as [|c before IH]; [exact H|].
  change (str_contains sub ((c :: before) ++ s))
    with (startswith sub ((c :: before) ++ s)
          || str_contains sub (before ++ s)).
  rewrite IH. apply orb_true_r.
Qed.

Lemma str_contains_piece (sub block s : str) :
  piece_of block s -> str_contains sub block = true ->
  str_contains sub s = true.
Proof.
  intros (before & after & ->) H.
  apply str_contains_app_l, str_contains_app_r, H.
Qed.

Lemma piece_of_trans (a b c : str) :
  piece_of a b -> piece_of b c -> piece_of a c.
Proof.
  intros (b1 & a1 & ->) (b2 & a2 & ->).
  exists (b2 ++ b1), (a1 ++ a2). now rewrite <- !app_assoc.
Qed.

Lemma strip_piece (s : str) : piece_of (str_strip s) s.
Proof.
  unfold str_strip, str_rstrip.
  destruct (lstrip_suffix s) as (spaces & E & _).
  destruct (lstrip_suffix (rev (str_lstrip s))) as (spaces' & E' & _).
  apply (f_equal (@rev codepoint)) in E'.
  rewrite rev_involutive, rev_app_distr in E'.
  exists spaces, (rev spaces'). now rewrite <- E'.
Qed.

(** The pieces [re.split] returns are pieces of the text it splits. *)
Lemma split_scan_piece (fl : flags) (r : regex) (block : str) :
  forall s skip piece,
    skip = 0%nat \/ piece = [] ->
    In block (split_scan fl r skip piece s) ->
    piece_of block s
    \/ exists w after, block = rev piece ++ w /\ s = w ++ after.
Proof.
  induction s as [|c s IH]; intros skip piece Hskip H.
  - simpl in H. destruct H as [<-|[]]. right. exists [], [].
    now rewrite app_nil_r.
  - cbn [split_scan] in H.
    assert (Hkeep : In block (split_scan fl r 0 (c :: piece) s) ->
                    piece_of block (c :: s)
                    \/ exists w after,
                         block = rev piece ++ w /\ c :: s = w ++ after).
    { intros H'. destruct (IH _ _ (or_introl eq_refl) H')
        as [(before & after & ->)|(w & after & -> & ->)].
      - left. now exists (c :: before), after.
      - right. exists (c :: w), after. simpl. now rewrite <- app_assoc. }
    assert (Hdrop : forall n, In block (split_scan fl r n [] s) ->
                              piece_of block (c :: s)).
    { intros n H'. destruct (IH _ _ (or_intror eq_refl) H')
        as [(before & after & ->)|(w & after & -> & ->)].
      - now exists (c :: before), after.
      - now exists [c], after. }
    destruct skip as [|n].
    + destruct (match_at fl r (c :: s)) as [m|]; [|auto].
      destruct (length (c :: s) - length (m_end m))%nat as [|n]; [auto|].
      destruct H as [<-|H]; [|left; eapply Hdrop; eassumption].
      right. exists [], (c :: s). now rewrite app_nil_r.
    + destruct Hskip as [Hs|Hs]; [discriminate|]. subst piece. left.
      eapply Hdrop, H.
Qed.

Lemma question_blocks_piece (quiz_text block : str) :
  In block (question_blocks quiz_text) -> piece_of block quiz_text.
Proof.
  unfold question_blocks, re_split. intros H.
  apply (piece_of_trans _ (str_strip quiz_text)); [|apply strip_piece].
  destruct (split_scan_piece _ _ _ _ _ _ (or_introl eq_refl) H)
    as [P|(w & after & -> & E)]; [exact P|].
  exists [], after. exact E.
Qed.

Lemma flat_map_nil {A B : Type} (f : A -> list B) (l : list A) :
  (forall x, In x l -> f x = []) -> flat_map f l = [].
Proof.
  induction l as [|x l IH]; intros H; [reflexivity|]. simpl.
  rewrite (H x (or_introl eq_refl)). apply IH. intros y Hy. apply H.
  now right.
Qed.

(** X17.  A completion in which [Q:] occurs nowhere gives no record at
    all, whatever else it holds (numbered questions, option lines,
    [Correct:] lines). *)
Theorem no_marker_no_record (quiz_text question_type : str) :
  str_contains (lit "Q:") quiz_text = false ->
  parse_quiz_response quiz_text question_type = [].
Proof.
  intros H. unfold parse_quiz_response. apply flat_map_nil.
  intros block Hb. apply question_blocks_piece in Hb.
  unfold block_records, parse_block.
  destruct (str_contains (lit "Q:") block) eqn:E.
  - rewrite (str_contains_piece _ _ _ Hb E) in H. discriminate.
  - simpl. now rewrite orb_true_r.
Qed.

Lemma no_marker_no_record_witness :
  parse_quiz_response
    (lit "1. The sky is blue.
A) yes
Correct: A") (lit "mcq") = [].
Proof. apply no_marker_no_record. reflexivity. Defined.

Lemma collect_options_trimmed (block : str) (letters : list codepoint) :
  forall opts opts',
    Forall trimmed opts ->
    collect_options block letters opts = Some opts' ->
    Forall trimmed opts'.
Proof.
  induction letters as [|letter letters IH]; intros opts opts' F H;
    simpl in H.
  - now injection H as <-.
  - destruct (re_search re_DOTALL (option_pattern letter) block) as [m|];
      [|eauto].
    destruct (m_group m) as [g|]; [|discriminate].
    eapply IH; [|exact H]. apply Forall_app. split; [exact F|].
    constructor; [apply strip_trimmed|constructor].
Qed.

Lemma true_false_answer_trimmed (answer : str) :
  true_false_answer answer -> trimmed answer.
Proof.
  intros [H|[H|H]]; subst answer.
  - change (lit "True") with (str_strip (lit "True")). apply strip_trimmed.
  - change (lit "False") with (str_strip (lit "False")). apply strip_trimmed.
  - change long_s_false with (str_strip long_s_false). apply strip_trimmed.
Qed.

Lemma multiple_choice_trimmed (block question_text : str) (q : QuizQuestion) :
  trimmed question_text ->
  multiple_choice block question_text = MultipleChoice (Some q) ->
  trimmed_fields q.
Proof.
  unfold multiple_choice. intros Hq H.
  destruct (collect_options block [65; 66; 67; 68] []) as [opts|] eqn:E;
    [|discriminate].
  apply collect_options_trimmed in E; [|constructor].
  destruct (re_search re_IGNORECASE correct_letter_pattern block);
    [|discriminate].
  destruct (length opts =? 4)%nat; [|discriminate].
  destruct (m_group r) as [g|]; [|discriminate].
  destruct (dict_get letter_to_index (str_upper g)) as [i|]; [|discriminate].
  destruct (nth_error opts i) as [answer|] eqn:En; [|discriminate].
  injection H as <-. unfold trimmed_fields. simpl. repeat split; auto.
  - apply Hq.
  - apply Hq.
  - apply nth_error_In in En. eapply Forall_forall in E; [|exact En].
    apply E.
  - apply nth_error_In in En. eapply Forall_forall in E; [|exact En].
    apply E.
Qed.

Lemma true_false_trimmed (block question_text : str) (q : QuizQuestion) :
  trimmed question_text ->
  true_false block question_text = TrueFalse (Some q) ->
  trimmed_fields q.
Proof.
  intros Hq H. pose proof (true_false_result block question_text) as [W _].
  rewrite H in W. destruct W as (_ & _ & W).
  apply true_false_answer_trimmed in W.
  unfold true_false in H.
  destruct (re_search re_IGNORECASE correct_tf_pattern block);
    [|discriminate].
  destruct (m_group r) as [g|]; [|discriminate].
  injection H as <-. unfold trimmed_fields. simpl in *. auto.
Qed.

(** X18.  Every text of a record [parse_quiz_response] returns (the
    question, each option, the correct answer) is trimmed: it neither
    begins nor ends with white space. *)
Theorem parsed_records_are_trimmed (quiz_text question_type : str)
    (q : QuizQuestion) :
  In q (parse_quiz_response quiz_text question_type) -> trimmed_fields q.
Proof.
  unfold parse_quiz_response. intros H. apply in_flat_map in H.
  destruct H as (block & _ & H). unfold block_records in H.
  destruct (parse_block block) as [| |[q'|]|[q'|]|] eqn:E; simpl in H;
    try contradiction; destruct H as [<-|[]]; unfold parse_block in E;
    destruct (isnil (str_strip block)
              || negb (str_contains (lit "Q:") block)); try discriminate;
    destruct (re_search re_DOTALL question_pattern block) as [m|];
    try discriminate;
    destruct (m_group m) as [g|]; try discriminate;
    destruct (re_search no_flags option_letter_pattern block) as [m'|].
  - eapply multiple_choice_trimmed; [apply strip_trimmed|exact E].
  - destruct (true_false_result block (str_strip g)) as [_ [a Ea]].
    congruence.
  - destruct (multiple_choice_result block (str_strip g)) as [_ [a Ea]].
    congruence.
  - eapply true_false_trimmed; [apply strip_trimmed|exact E].
Qed.

Lemma parsed_records_are_trimmed_witness :
  trimmed_fields
    {| question := lit "What is 2+2?";
       options := Some [lit "3"; lit "4"; lit "5"; lit "6"];
       correct_answer := lit "4";
       type := lit "mcq" |}.
Proof.
  apply (parsed_records_are_trimmed sample_completion (lit "mixed")).
  vm_compute. right. left. reflexivity.
Defined.

(** ** The matcher on texts of a known shape *)

Lemma fails_along_app {R : Type} (f : str -> option R) (x y s : str) :
  fails_along f x (y ++ s) -> fails_along f y s -> fails_along f (x ++ y) s.
Proof.
  intros Hx Hy. induction x as [|c x IH]; [exact Hy|].
  destruct Hx as [H Hx]. split; [|auto].
  simpl in *. now rewrite <- app_assoc.
Qed.

Lemma fails_along_ext {R R' : Type} (f : str -> option R)
    (f' : str -> option R') (x s : str) :
  (forall t, f t = None -> f' t = None) ->
  fails_along f x s -> fails_along f' x s.
Proof.
  intros H. induction x as [|c x IH]; [auto|]. intros [H1 H2]. split; auto.
Qed.

Lemma re_search_skip (fl : flags) (r : regex) (x s : str) :
  fails_along (match_at fl r) x s ->
  re_search fl r (x ++ s) = re_search fl r s.
Proof.
  induction x as [|c x IH]; [reflexivity|]. intros [H1 H2].
  change (re_search fl r ((c :: x) ++ s))
    with (match match_at fl r ((c :: x) ++ s) with
          | Some m => Some m
          | None => re_search fl r (x ++ s)
          end).
  rewrite H1. auto.
Qed.

Lemma re_search_here (fl : flags) (r : regex) (s : str) (m : rematch) :
  match_at fl r s = Some m -> re_search fl r s = Some m.
Proof. intros H. destruct s; simpl; now rewrite H. Qed.

Lemma re_search_nowhere (fl : flags) (r : regex) (x : str) :
  fails_along (match_at fl r) x [] -> match_at fl r [] = None ->
  re_search fl r x = None.
Proof.
  intros H H0. rewrite <- (app_nil_r x). rewrite re_search_skip by exact H.
  simpl. now rewrite H0.
Qed.

Lemma split_scan_skip (fl : flags) (r : regex) (x s : str) :
  forall piece,
    fails_along (match_at fl r) x s ->
    split_scan fl r 0 piece (x ++ s) = split_scan fl r 0 (rev x ++ piece) s.
Proof.
  induction x as [|c x IH]; intros piece H; [reflexivity|].
  destruct H as [H1 H2].
  change (split_scan fl r 0 piece ((c :: x) ++ s))
    with (match match_at fl r ((c :: x) ++ s) with
          | Some m =>
              match (length ((c :: x) ++ s) - length (m_end m))%nat with
              | S n => rev piece :: split_scan fl r n [] (x ++ s)
              | O => split_scan fl r O (c :: piece) (x ++ s)
              end
          | None => split_scan fl r O (c :: piece) (x ++ s)
          end).
  rewrite H1, IH by exact H2. simpl. now rewrite <- app_assoc.
Qed.

Lemma lazy_star_skip {R : Type} (p : codepoint -> bool)
    (k : str -> option R) (x s : str) :
  Forall (fun c => p c = true) x -> fails_along k x s ->
  lazy_star p k (x ++ s) = lazy_star p k s.
Proof.
  induction x as [|c x IH]; [reflexivity|]. intros Hp [H1 H2].
  inversion Hp as [|c' x' Hc Hx]; subst.
  change (lazy_star p k ((c :: x) ++ s))
    with (match k ((c :: x) ++ s) with
          | Some y => Some y
          | None => if p c then lazy_star p k (x ++ s) else None
          end).
  rewrite H1, Hc. auto.
Qed.

Lemma lazy_star_here {R : Type} (p : codepoint -> bool)
    (k : str -> option R) (s : str) (y : R) :
  k s = Some y -> lazy_star p k s = Some y.
Proof. intros H. destruct s; simpl; now rewrite H. Qed.

Lemma greedy_star_commit {R : Type} (p : codepoint -> bool)
    (k : str -> option R) (ws s : str) (y : R) :
  Forall (fun c => p c = true) ws ->
  greedy_star p k s = Some y -> greedy_star p k (ws ++ s) = Some y.
Proof.
  intros Hp H. induction Hp as [|c ws Hc Hws IH]; [exact H|].
  simpl. now rewrite Hc, IH.
Qed.

Lemma greedy_star_stop {R : Type} (p : codepoint -> bool)
    (k : str -> option R) (c : codepoint) (s : str) :
  p c = false -> greedy_star p k (c :: s) = k (c :: s).
Proof. intros H. simpl. now rewrite H. Qed.

Lemma rmatch_text_of {R : Type} (fl : flags) (P : str) :
  forall (s : str) (g : option str) (k : str -> option str -> option R),
    rmatch fl (text_of P) s g k
    = match strip_prefix fl P s with
      | Some s1 => k s1 g
      | None => None
      end.
Proof.
  induction P as [|p P IH]; intros s g k; [reflexivity|].
  destruct P as [|p' P].
  - cbn [text_of rmatch strip_prefix]. destruct s as [|c s]; [reflexivity|].
    now destruct (atom_match fl (Chr p) c).
  - change (text_of (p :: p' :: P))
      with (Cat (Atom (Chr p)) (text_of (p' :: P))).
    cbn [rmatch strip_prefix]. destruct s as [|c s]; [reflexivity|].
    destruct (atom_match fl (Chr p) c); [|reflexivity]. apply IH.
Qed.

(** A literal made of characters other than the newline and ending in a
    colon is not found where a text without colon runs into a newline. *)
Lemma strip_prefix_blocked (fl : flags) (P w rest : str) :
  (forall p, In p P -> atom_match fl (Chr p) 10 = false) ->
  atom_match fl (Chr 58) 10 = false ->
  Forall (fun c => atom_match fl (Chr 58) c = false) w ->
  strip_prefix fl (P ++ [58]) (w ++ 10 :: rest) = None.
Proof.
  intros HP H58. revert w. induction P as [|p P IH]; intros w Hw.
  - destruct w as [|c w]; cbn [app strip_prefix]; [now rewrite H58|].
    inversion Hw as [|c' w' Hc Hw']; subst. now rewrite Hc.
  - destruct w as [|c w]; cbn [app strip_prefix].
    + rewrite (HP p); [reflexivity|now left].
    + destruct (atom_match fl (Chr p) c); [|reflexivity].
      apply IH; [|now inversion Hw]. intros q Hq. apply HP. now right.
Qed.

Lemma until_marker_spec {R : Type} (s : str) (g : option str)
    (k : str -> option str -> option R) :
  rmatch re_DOTALL until_marker s g k
  = match at_marker s with
    | Some _ => k s g
    | None => None
    end.
Proof.
  unfold at_marker, until_marker, text. cbn [rmatch].
  rewrite !rmatch_text_of.
  destruct s as [|c0 [|c1 [|c2 s]]]; cbn [strip_prefix];
    repeat match goal with
           | |- context [if ?b then _ else _] => destruct b
           | |- context [match strip_prefix ?fl ?P ?t with _ => _ end] =>
               destruct (strip_prefix fl P t)
           end; reflexivity.
Qed.

Lemma firstn_app_length {A : Type} (a b : list A) :
  firstn (length (a ++ b) - length b) (a ++ b) = a.
Proof.
  rewrite length_app. replace (length a + length b - length b)%nat
    with (length a + 0)%nat by lia.
  rewrite firstn_app_2. simpl. apply app_nil_r.
Qed.

(** [\s*(.+?)(?=...)] after one space: the group starts at the first
    character that is not white space and runs up to the first position
    where the lookahead holds. *)
Lemma capture_until_marker (c : codepoint) (x rest : str) (g0 : option str) :
  isspace c = false ->
  fails_along at_marker x rest ->
  at_marker rest <> None ->
  rmatch re_DOTALL (Star Space ;; Group (PlusLazy Dot) ;; until_marker)%re
    (32 :: (c :: x) ++ rest) g0 final
  = Some {| m_end := rest; m_group := Some (c :: x) |}.
Proof.
  intros Hc Hx Hrest.
  change (rmatch re_DOTALL (Star Space ;; Group (PlusLazy Dot) ;; until_marker)%re
            (32 :: (c :: x) ++ rest) g0 final)
    with (greedy_star (atom_match re_DOTALL Space)
            (fun s1 => rmatch re_DOTALL (Group (PlusLazy Dot) ;; until_marker)%re
                         s1 g0 final)
            ([32] ++ (c :: x) ++ rest)).
  apply greedy_star_commit; [constructor; [reflexivity|constructor]|].
  change ((c :: x) ++ rest) with (c :: x ++ rest).
  rewrite greedy_star_stop by exact Hc.
  set (s := c :: x ++ rest).
  change (rmatch re_DOTALL (Group (PlusLazy Dot) ;; until_marker)%re s g0 final)
    with (lazy_plus (atom_match re_DOTALL Dot)
            (fun s1 => rmatch re_DOTALL until_marker s1
                         (Some (firstn (length s - length s1) s)) final) s).
  unfold s at 3. cbn [lazy_plus].
  change (atom_match re_DOTALL Dot c) with true. cbv iota.
  rewrite lazy_star_skip.
  - apply lazy_star_here. rewrite until_marker_spec.
    destruct (at_marker rest); [|contradiction]. unfold final. do 2 f_equal.
    f_equal. apply (firstn_app_length (c :: x) rest).
  - apply Forall_forall. reflexivity.
  - eapply fails_along_ext; [|exact Hx]. intros t Ht.
    rewrite until_marker_spec. now rewrite Ht.
Qed.

Lemma plain_not_at_marker (c : codepoint) (x rest : str) :
  Forall (fun c => c <> 10 /\ c <> 58) (c :: x) ->
  at_marker ((c :: x) ++ 10 :: rest) = None.
Proof.
  intros H. unfold at_marker, until_marker, text. cbn [rmatch].
  rewrite !rmatch_text_of.
  change (lit "Correct:") with (lit "Correct" ++ [58]).
  rewrite strip_prefix_blocked.
  - inversion H as [|c' x' [Hc _] Hx]; subst. cbn [app].
    change (atom_match re_DOTALL (Chr newline) c) with (c =? 10).
    destruct (N.eqb_spec c 10) as [E|_]; [contradiction|].
    destruct x; reflexivity.
  - intros p Hp. simpl in Hp.
    repeat (destruct Hp as [<-|Hp]; [reflexivity|]). contradiction.
  - reflexivity.
  - eapply Forall_impl; [|exact H]. intros a [_ Ha]. simpl.
    now apply N.eqb_neq.
Qed.

Lemma plain_fails_marker (x rest : str) :
  Forall (fun c => c <> 10 /\ c <> 58) x ->
  fails_along at_marker x (10 :: rest).
Proof.
  induction x as [|c x IH]; intros H; [exact I|]. split.
  - now apply plain_not_at_marker.
  - apply IH. now inversion H.
Qed.

Lemma plain_head (q : str) :
  plain q -> exists c q', q = c :: q' /\ isspace c = false.
Proof.
  intros (Hne & [Hhead _] & _). destruct q as [|c q']; [contradiction|].
  exists c, q'. split; [reflexivity|]. now apply (Hhead c q').
Qed.

Lemma plain_no_colon (q : str) :
  plain q -> Forall (fun c => c <> 10 /\ c <> 58) q.
Proof.
  intros (_ & _ & H). eapply Forall_impl; [|exact H]. now intros a (? & _ & ?).
Qed.

Lemma plain_no_paren (q : str) : plain q -> Forall (fun c => c <> 41) q.
Proof.
  intros (_ & _ & H). eapply Forall_impl; [|exact H]. now intros a (_ & ? & _).
Qed.

Lemma plain_no_newline (q : str) : plain q -> Forall (fun c => c <> 10) q.
Proof.
  intros (_ & _ & H). eapply Forall_impl; [|exact H]. now intros a (? & _ & _).
Qed.

(** The group when the marker comes right after the newline that ends the
    text. *)
Lemma capture_before_marker (q rest : str) (g0 : option str) :
  plain q -> at_marker (10 :: rest) <> None ->
  rmatch re_DOTALL (Star Space ;; Group (PlusLazy Dot) ;; until_marker)%re
    (32 :: q ++ 10 :: rest) g0 final
  = Some {| m_end := 10 :: rest; m_group := Some q |}.
Proof.
  intros Hq Hm. destruct (plain_head q Hq) as (c & q' & -> & Hc).
  apply capture_until_marker; [exact Hc| |exact Hm].
  apply plain_fails_marker. apply plain_no_colon in Hq. now inversion Hq.
Qed.

(** The group when the lookahead only holds after that newline: the
    newline is part of the group. *)
Lemma capture_past_newline (q rest : str) (g0 : option str) :
  plain q -> at_marker (10 :: rest) = None -> at_marker rest <> None ->
  rmatch re_DOTALL (Star Space ;; Group (PlusLazy Dot) ;; until_marker)%re
    (32 :: q ++ 10 :: rest) g0 final
  = Some {| m_end := rest; m_group := Some (q ++ [10]) |}.
Proof.
  intros Hq Hn Hm. destruct (plain_head q Hq) as (c & q' & -> & Hc).
  replace ((c :: q') ++ 10 :: rest) with ((c :: q' ++ [10]) ++ rest)
    by (simpl; now rewrite <- app_assoc).
  change ((c :: q') ++ [10]) with (c :: q' ++ [10]).
  apply capture_until_marker; [exact Hc| |exact Hm].
  apply fails_along_app.
  - apply plain_fails_marker. apply plain_no_colon in Hq. now inversion Hq.
  - split; [exact Hn|exact I].
Qed.

Lemma strip_plain_newline (q : str) : plain q -> str_strip (q ++ [10]) = q.
Proof.
  intros Hq. destruct (plain_head q Hq) as (c & q' & -> & Hc).
  destruct Hq as (_ & Ht & _). pose proof (trimmed_strip _ Ht) as E.
  assert (L : forall t, str_lstrip (c :: t) = c :: t)
    by (intros t; simpl; now rewrite Hc).
  unfold str_strip, str_rstrip in *. rewrite L in E.
  change ((c :: q') ++ [10]) with (c :: (q' ++ [10])). rewrite L.
  change (c :: q' ++ [10]) with ((c :: q') ++ [10]). rewrite rev_app_distr.
  change (rev [10] ++ rev (c :: q')) with (10 :: rev (c :: q')).
  change (str_lstrip (10 :: rev (c :: q')))
    with (str_lstrip (rev (c :: q'))).
  exact E.
Qed.

Lemma strip_plain (q : str) : plain q -> str_strip q = q.
Proof. intros (_ & Ht & _). now apply trimmed_strip. Qed.

Lemma no_paren_no_option_letter (s : str) :
  Forall (fun c => c <> 41) s ->
  re_search no_flags option_letter_pattern s = None.
Proof.
  intros H. pose proof (search_option_letter s) as E.
  assert (Hl : has_option_letter s = false).
  { clear E. induction s as [|c s IH]; [reflexivity|].
    inversion H as [|c' s' Hc Hs]; subst. destruct s as [|d s]; [reflexivity|].
    change (has_option_letter (c :: d :: s))
      with ((between letter_A letter_D c && (d =? rparen))
            || has_option_letter (d :: s)).
    rewrite (IH Hs). inversion Hs as [|d' s' Hd _]; subst.
    destruct (N.eqb_spec d rparen) as [E|_]; [contradiction|].
    now rewrite andb_false_r. }
  rewrite Hl in E. now destruct (re_search no_flags option_letter_pattern s).
Qed.

(** [Correct:] is not found, with or without IGNORECASE, inside a text
    without colon that a newline follows. *)
Lemma correct_fails_plain (fl : flags) (r : regex) (x rest : str) :
  fl = re_IGNORECASE \/ fl = re_DOTALL ->
  Forall (fun c => c <> 58) x ->
  fails_along (match_at fl (text "Correct:" ;; r)%re) x (10 :: rest).
Proof.
  intros Hfl. induction x as [|c x IH]; intros H; [exact I|].
  split; [|apply IH; now inversion H].
  unfold match_at, text. cbn [rmatch]. rewrite rmatch_text_of.
  change (lit "Correct:") with (lit "Correct" ++ [58]).
  rewrite strip_prefix_blocked; [reflexivity| | |].
  - intros p Hp. simpl in Hp.
    destruct Hfl as [-> | ->];
      repeat (destruct Hp as [<-|Hp]; [reflexivity|]); contradiction.
  - destruct Hfl as [-> | ->]; reflexivity.
  - eapply Forall_impl; [|exact H]. intros a Ha. simpl in Ha.
    destruct Hfl as [-> | ->].
    + destruct (atom_match re_IGNORECASE (Chr 58) a) eqn:E; [|reflexivity].
      apply ignorecase_colon in E. contradiction.
    + simpl. now apply N.eqb_neq.
Qed.

Lemma true_false_block_question (q : str) (answer : bool) :
  plain q ->
  exists m g,
    re_search re_DOTALL question_pattern (true_false_block q answer) = Some m
    /\ m_group m = Some g /\ str_strip g = q.
Proof.
  intros Hq. eexists. exists (q ++ [10]). split; [|split].
  - apply re_search_here. unfold true_false_block.
    change (match_at re_DOTALL question_pattern
              (lit "Q: " ++ q ++ newline :: lit "Correct: " ++ answer_text answer))
      with (rmatch re_DOTALL
              (Star Space ;; Group (PlusLazy Dot) ;; until_marker)%re
              (32 :: q ++ 10 :: lit "Correct: " ++ answer_text answer)
              None final).
    apply capture_past_newline; [exact Hq|reflexivity|discriminate].
  - reflexivity.
  - now apply strip_plain_newline.
Qed.

Lemma true_false_block_answer (q : str) (answer : bool) :
  plain q ->
  exists m,
    re_search re_IGNORECASE correct_tf_pattern (true_false_block q answer)
    = Some m
    /\ m_group m = Some (answer_text answer).
Proof.
  intros Hq. unfold true_false_block.
  replace (lit "Q: " ++ q ++ newline :: lit "Correct: " ++ answer_text answer)
    with ((lit "Q: " ++ q ++ [10]) ++ lit "Correct: " ++ answer_text answer)
    by (now rewrite <- !app_assoc).
  rewrite re_search_skip.
  - destruct answer; eexists; split; reflexivity.
  - apply fails_along_app; [|apply fails_along_app].
    + repeat split.
    + apply (correct_fails_plain re_IGNORECASE); [now left|].
      apply plain_no_colon in Hq. eapply Forall_impl; [|exact Hq].
      now intros a [_ ?].
    + repeat split.
Qed.

Lemma true_false_block_parsed (q : str) (answer : bool) :
  plain q ->
  parse_block (true_false_block q answer)
  = TrueFalse (Some (true_false_record q answer)).
Proof.
  intros Hq. unfold parse_block.
  rewrite marked_block_not_skipped by reflexivity.
  destruct (true_false_block_question q answer Hq) as (m & g & -> & -> & ->).
  rewrite no_paren_no_option_letter.
  - unfold true_false.
    destruct (true_false_block_answer q answer Hq) as (m' & -> & ->).
    now destruct answer.
  - unfold true_false_block. apply Forall_app. split.
    + repeat constructor; discriminate.
    + apply Forall_app. split; [now apply plain_no_paren|].
      destruct answer; repeat constructor; discriminate.
Qed.

Lemma re_search_next (fl : flags) (r : regex) (c : codepoint) (s : str) :
  match_at fl r (c :: s) = None -> re_search fl r (c :: s) = re_search fl r s.
Proof. intros H. simpl. now rewrite H. Qed.

(** An option pattern is not found inside a text without closing
    parenthesis that a newline follows. *)
Lemma option_fails_plain (letter : codepoint) (x rest : str) :
  Forall (fun c => c <> 41) x ->
  fails_along (match_at re_DOTALL (option_pattern letter)) x (10 :: rest).
Proof.
  induction x as [|c x IH]; intros H; [exact I|].
  inversion H as [|c' x' Hc Hx]; subst. split; [|auto].
  unfold match_at, option_pattern. cbn [rmatch app].
  destruct (atom_match re_DOTALL (Chr letter) c); [|reflexivity].
  destruct x as [|d x]; cbn [app]; [reflexivity|].
  inversion Hx as [|d' x' Hd _]; subst.
  change (atom_match re_DOTALL (Chr rparen) d) with (d =? 41).
  now destruct (N.eqb_spec d 41).
Qed.

Ltac skip_option_search :=
  repeat first
    [ rewrite re_search_next by reflexivity
    | rewrite re_search_skip
        by (apply option_fails_plain; apply plain_no_paren; assumption) ].

Lemma multiple_choice_block_eq (q a b c d : str) (correct : nat) :
  multiple_choice_block q a b c d correct
  = 81 :: 58 :: 32 :: q
    ++ 10 :: 65 :: 41 :: 32 :: a
    ++ 10 :: 66 :: 41 :: 32 :: b
    ++ 10 :: 67 :: 41 :: 32 :: c
    ++ 10 :: 68 :: 41 :: 32 :: d
    ++ 10 :: 67 :: 111 :: 114 :: 114 :: 101 :: 99 :: 116 :: 58 :: 32
       :: [option_letter correct].
Proof. reflexivity. Qed.

Lemma multiple_choice_block_question (q a b c d : str) (correct : nat) :
  plain q ->
  exists m,
    re_search re_DOTALL question_pattern (multiple_choice_block q a b c d correct)
    = Some m
    /\ m_group m = Some q.
Proof.
  intros Hq. eexists. split.
  - apply re_search_here. rewrite multiple_choice_block_eq.
    match goal with
    | |- match_at _ _ (81 :: 58 :: ?s) = _ =>
        change (match_at re_DOTALL question_pattern (81 :: 58 :: s))
          with (rmatch re_DOTALL
                  (Star Space ;; Group (PlusLazy Dot) ;; until_marker)%re
                  s None final)
    end.
    apply capture_before_marker; [exact Hq|discriminate].
  - reflexivity.
Qed.

Ltac option_match :=
  match goal with
  | |- match_at _ (option_pattern ?l) (?l :: 41 :: ?s) = _ =>
      change (match_at re_DOTALL (option_pattern l) (l :: 41 :: s))
        with (rmatch re_DOTALL
                (Star Space ;; Group (PlusLazy Dot) ;; until_marker)%re
                s None final)
  end.

Lemma multiple_choice_block_options (q a b c d : str) (correct : nat) :
  plain q -> plain a -> plain b -> plain c -> plain d ->
  collect_options (multiple_choice_block q a b c d correct)
    [65; 66; 67; 68] []
  = Some [a; b; c; d].
Proof.
  intros Hq Ha Hb Hc Hd. rewrite multiple_choice_block_eq.
  cbn [collect_options].
  skip_option_search. erewrite re_search_here;
    [|option_match; apply capture_before_marker; [assumption|discriminate]].
  cbn [m_group]. rewrite (strip_plain a Ha).
  skip_option_search. erewrite re_search_here;
    [|option_match; apply capture_before_marker; [assumption|discriminate]].
  cbn [m_group]. rewrite (strip_plain b Hb).
  skip_option_search. erewrite re_search_here;
    [|option_match; apply capture_before_marker; [assumption|discriminate]].
  cbn [m_group]. rewrite (strip_plain c Hc).
  skip_option_search. erewrite re_search_here;
    [|option_match; apply capture_past_newline;
      [assumption|reflexivity|discriminate]].
  cbn [m_group]. rewrite (strip_plain_newline d Hd).
  reflexivity.
Qed.

Ltac skip_correct_search :=
  repeat first
    [ rewrite re_search_next by reflexivity
    | rewrite re_search_skip
        by (apply (correct_fails_plain re_IGNORECASE); [now left|];
            match goal with
            | H : plain ?x |- Forall _ ?x =>
                apply plain_no_colon in H;
                eapply Forall_impl; [|exact H]; now intros ? [_ ?]
            end) ].

Lemma multiple_choice_block_letter (q a b c d : str) (correct : nat) :
  plain q -> plain a -> plain b -> plain c -> plain d ->
  (correct < 4)%nat ->
  exists m,
    re_search re_IGNORECASE correct_letter_pattern
      (multiple_choice_block q a b c d correct)
    = Some m
    /\ m_group m = Some [option_letter correct].
Proof.
  intros Hq Ha Hb Hc Hd Hi. rewrite multiple_choice_block_eq.
  unfold correct_letter_pattern.
  skip_correct_search.
  destruct correct as [|[|[|[|n]]]]; try lia;
    eexists; split; reflexivity.
Qed.

Lemma multiple_choice_block_parsed (q a b c d : str) (correct : nat) :
  plain q -> plain a -> plain b -> plain c -> plain d ->
  (correct < 4)%nat ->
  parse_block (multiple_choice_block q a b c d correct)
  = MultipleChoice (Some (multiple_choice_record q a b c d correct)).
Proof.
  intros Hq Ha Hb Hc Hd Hi. unfold parse_block.
  rewrite marked_block_not_skipped by reflexivity.
  destruct (multiple_choice_block_question q a b c d correct Hq)
    as (m & -> & ->).
  rewrite (strip_plain q Hq).
  destruct (re_search no_flags option_letter_pattern
              (multiple_choice_block q a b c d correct)) eqn:E.
  - unfold multiple_choice.
    rewrite multiple_choice_block_options by assumption.
    destruct (multiple_choice_block_letter q a b c d correct)
      as (m' & -> & ->); try assumption.
    destruct correct as [|[|[|[|n]]]]; try lia; reflexivity.
  - exfalso. revert E. rewrite multiple_choice_block_eq.
    replace (81 :: 58 :: 32 :: q
             ++ 10 :: 65 :: 41 :: 32 :: a
             ++ 10 :: 66 :: 41 :: 32 :: b
             ++ 10 :: 67 :: 41 :: 32 :: c
             ++ 10 :: 68 :: 41 :: 32 :: d
             ++ 10 :: 67 :: 111 :: 114 :: 114 :: 101 :: 99 :: 116 :: 58 :: 32
                :: [option_letter correct])
      with ((81 :: 58 :: 32 :: q ++ [10])
            ++ 65 :: 41 :: 32 :: a
            ++ 10 :: 66 :: 41 :: 32 :: b
            ++ 10 :: 67 :: 41 :: 32 :: c
            ++ 10 :: 68 :: 41 :: 32 :: d
            ++ 10 :: 67 :: 111 :: 114 :: 114 :: 101 :: 99 :: 116 :: 58 :: 32
               :: [option_letter correct])
      by (simpl; now rewrite <- app_assoc).
    apply re_search_from. discriminate.
Qed.

(** ** A completion in the format of the prompt *)

Lemma boundary_fails_plain (x s : str) :
  Forall (fun c => c <> 10) x ->
  fails_along (match_at no_flags block_boundary) x s.
Proof.
  induction x as [|c x IH]; intros H; [exact I|].
  inversion H as [|c' x' Hc Hx]; subst. split; [|auto].
  unfold match_at, block_boundary. cbn [rmatch app].
  change (atom_match no_flags (Chr newline) c) with (c =? 10).
  now destruct (N.eqb_spec c 10).
Qed.

Ltac boundary_fails :=
  repeat first
    [ exact I
    | apply fails_along_app;
        [apply boundary_fails_plain; apply plain_no_newline; assumption|]
    | split; [reflexivity|] ].

Lemma item_block_clean (item : quiz_item) (s : str) :
  item_plain item ->
  fails_along (match_at no_flags block_boundary) (item_block item) s.
Proof.
  destruct item as [q answer|q a b c d correct];
    cbn [item_block item_plain].
  - intros Hq. unfold true_false_block.
    change (lit "Q: " ++ q ++ newline :: lit "Correct: " ++ answer_text answer)
      with (81 :: 58 :: 32 :: q
            ++ 10 :: 67 :: 111 :: 114 :: 114 :: 101 :: 99 :: 116 :: 58 :: 32
               :: answer_text answer).
    destruct answer; boundary_fails.
  - intros (Hq & Ha & Hb & Hc & Hd & Hi). rewrite multiple_choice_block_eq.
    boundary_fails.
    destruct correct as [|[|[|[|n]]]]; try lia; boundary_fails.
Qed.

Lemma item_block_head (item : quiz_item) :
  exists t, item_block item = 81 :: 58 :: t.
Proof. destruct item; eexists; reflexivity. Qed.

Lemma item_block_last (item : quiz_item) :
  exists front c, item_block item = front ++ [c] /\ isspace c = false.
Proof.
  destruct item as [q answer|q a b c d correct]; cbn [item_block].
  - exists (lit "Q: " ++ q ++ newline :: lit "Correct: "
            ++ (if answer then lit "Tru" else lit "Fals")), 101.
    split; [|reflexivity]. unfold true_false_block.
    destruct answer; rewrite <- !app_assoc; reflexivity.
  - exists (lit "Q: " ++ q
            ++ newline :: lit "A) " ++ a
            ++ newline :: lit "B) " ++ b
            ++ newline :: lit "C) " ++ c
            ++ newline :: lit "D) " ++ d
            ++ newline :: lit "Correct: "), (option_letter correct).
    split.
    + unfold multiple_choice_block. simpl.
      repeat (rewrite <- ?app_assoc; simpl; f_equal).
    + destruct correct as [|[|[|[|[|n]]]]]; reflexivity.
Qed.

Lemma str_join_head (sep : str) (b : str) (bs : list str) :
  exists after, str_join sep (b :: bs) = b ++ after.
Proof.
  destruct bs as [|b' bs].
  - exists []. simpl. now rewrite app_nil_r.
  - now exists (sep ++ str_join sep (b' :: bs)).
Qed.

Lemma str_join_last (sep : str) (bs : list str) (b : str) :
  exists before, str_join sep (bs ++ [b]) = before ++ b.
Proof.
  induction bs as [|b0 bs (before & E)].
  - now exists [].
  - exists (b0 ++ sep ++ before). cbn [app].
    destruct (bs ++ [b]) as [|b1 rest] eqn:Er.
    + now destruct bs.
    + change (str_join sep (b0 :: b1 :: rest))
        with (b0 ++ sep ++ str_join sep (b1 :: rest)).
      rewrite E. now rewrite <- !app_assoc.
Qed.

Lemma split_scan_boundary (piece t : str) :
  split_scan no_flags block_boundary 0 piece (10 :: 81 :: 58 :: t)
  = rev piece :: split_scan no_flags block_boundary 0 [] (81 :: 58 :: t).
Proof.
  change (split_scan no_flags block_boundary 0 piece (10 :: 81 :: 58 :: t))
    with (match Nat.sub (length (10 :: 81 :: 58 :: t))
                  (length (81 :: 58 :: t)) with
          | S n =>
              rev piece
              :: split_scan no_flags block_boundary n [] (81 :: 58 :: t)
          | O =>
              split_scan no_flags block_boundary 0 (10 :: piece)
                (81 :: 58 :: t)
          end).
  replace (Nat.sub (length (10 :: 81 :: 58 :: t)) (length (81 :: 58 :: t)))
    with 1%nat by (cbn [length]; lia).
  reflexivity.
Qed.

(** [re.split] on the blocks joined by newlines gives the blocks back. *)
Lemma split_scan_join (blocks : list str) :
  forall b piece,
    Forall (fun b => (exists t, b = 81 :: 58 :: t)
                     /\ forall s,
                          fails_along (match_at no_flags block_boundary) b s)
      (b :: blocks) ->
    split_scan no_flags block_boundary 0 piece
      (str_join [newline] (b :: blocks))
    = (rev piece ++ b) :: blocks.
Proof.
  induction blocks as [|b' blocks IH]; intros b piece H;
    inversion H as [|b0 bs [Hhead Hclean] Hrest]; subst.
  - cbn [str_join]. rewrite <- (app_nil_r b) at 1.
    rewrite split_scan_skip by apply Hclean. cbn [split_scan].
    now rewrite rev_app_distr, rev_involutive.
  - change (str_join [newline] (b :: b' :: blocks))
      with (b ++ 10 :: str_join [newline] (b' :: blocks)).
    rewrite split_scan_skip by apply Hclean.
    specialize (IH b' [] Hrest).
    destruct (str_join_head [newline] b' blocks) as (after & Ej).
    inversion Hrest as [|b1 bs1 [(t & Et) _] _]; subst.
    change ((81 :: 58 :: t) ++ after) with (81 :: 58 :: t ++ after) in Ej.
    rewrite Ej in *. rewrite split_scan_boundary, IH.
    now rewrite rev_app_distr, rev_involutive.
Qed.

Lemma strip_completion (items : list quiz_item) :
  str_strip (completion_of items) = completion_of items.
Proof.
  unfold completion_of. destruct items as [|item items]; [reflexivity|].
  unfold str_strip, str_rstrip.
  destruct (str_join_head [newline] (item_block item) (map item_block items))
    as (after & E).
  destruct (item_block_head item) as (t & Et).
  assert (L : str_lstrip (str_join [newline] (map item_block (item :: items)))
              = str_join [newline] (map item_block (item :: items))).
  { cbn [map]. rewrite E, Et. reflexivity. }
  rewrite L.
  destruct (@exists_last _ (item :: items)) as (its & last & El);
    [discriminate|].
  rewrite El, map_app. cbn [map].
  destruct (str_join_last [newline] (map item_block its) (item_block last))
    as (before & ->).
  destruct (item_block_last last) as (front & c & -> & Hc).
  rewrite app_assoc, rev_app_distr. cbn [rev app str_lstrip]. rewrite Hc.
  change (c :: rev (before ++ front)) with (rev [c] ++ rev (before ++ front)).
  now rewrite <- rev_app_distr, rev_involutive.
Qed.

Lemma item_block_records (item : quiz_item) :
  item_plain item -> block_records (item_block item) = [item_record item].
Proof.
  destruct item as [q answer|q a b c d correct];
    cbn [item_block item_plain item_record]; unfold block_records.
  - intros Hq. now rewrite true_false_block_parsed.
  - intros (Hq & Ha & Hb & Hc & Hd & Hi).
    now rewrite multiple_choice_block_parsed.
Qed.

Lemma item_blocks_records (items : list quiz_item) :
  Forall item_plain items ->
  flat_map block_records (map item_block items) = map item_record items.
Proof.
  induction 1 as [|item items Hitem Hitems IH]; [reflexivity|].
  cbn [map flat_map]. now rewrite (item_block_records item Hitem), IH.
Qed.

(** X19.  Round trip: a completion written in the format the prompt asks
    for (true/false and multiple-choice blocks in any number and order,
    one newline between blocks), from questions and options that are not
    empty, are trimmed and hold no newline, colon or closing parenthesis,
    is parsed back into exactly those questions, options and answers, in
    order. *)
Theorem parse_quiz_response_round_trip
    (items : list quiz_item) (question_type : str) :
  Forall item_plain items ->
  parse_quiz_response (completion_of items) question_type
  = map item_record items.
Proof.
  intros H. unfold parse_quiz_response, question_blocks.
  rewrite strip_completion. unfold completion_of, re_split.
  destruct items as [|item items]; [reflexivity|].
  inversion H as [|item' items' Hitem Hitems]; subst.
  cbn [map]. rewrite split_scan_join.
  - change (rev [] ++ item_block item) with (item_block item).
    change (item_block item :: map item_block items)
      with (map item_block (item :: items)).
    now apply item_blocks_records.
  - change (item_block item :: map item_block items)
      with (map item_block (item :: items)).
    apply Forall_forall. intros b Hb. apply in_map_iff in Hb.
    destruct Hb as (it & <- & Hin). split; [apply item_block_head|].
    intros s. apply item_block_clean.
    eapply Forall_forall in H; eassumption.
Qed.

Ltac plain_text :=
  split; [discriminate|];
  split;
  [ match goal with
    | |- trimmed ?s => change s with (str_strip s); apply strip_trimmed
    end
  | repeat (constructor; [repeat split; discriminate|]); constructor ].

Lemma parse_quiz_response_round_trip_witness :
  parse_quiz_response (completion_of sample_items) (lit "mixed")
  = map item_record sample_items.
Proof.
  apply parse_quiz_response_round_trip.
  constructor; [|constructor; [|constructor]].
  - simpl. plain_text.
  - simpl. repeat (split; [plain_text|]). lia.
Defined.

Example sample_items_completion :
  completion_of sample_items = sample_completion.
Proof. reflexivity. Qed.
